(** * Genji: the planner's document hash set, the example query and the CLI

    A shallow embedding of

    - [planner.documentHashSet] ([newDocumentHashSet], [generateKey],
      [Filter]), the hash-set filter behind the DISTINCT operator;
    - the scan / filter / projection scenario of [Example];
    - the root and [restore] actions of [cmd/genji/main.go].

    Go values are modelled as follows: [uint64] is a [Z] reduced modulo
    [2^64]; [[]byte] is [list byte]; [map[uint64]struct{}] is [gset Z];
    [(T, error)] results are pairs with an [option error], [None] being
    [nil]; an interface is a record of its methods. *)

From Stdlib Require Import ZArith Strings.Byte.
From stdpp Require Import base decidable option list gmap sets strings sorting.

Set Warnings "-register-all,-clear-no-such-hyp".

Local Open Scope Z_scope.

(** ** Shared vocabulary *)

(** A Go [error], identified by its message. *)
Definition error : Type := string.

#[global] Instance byte_eq_dec : EqDecision byte := Byte.byte_eq_dec.

(** The outcome of a fallible call that yields an [A] or an error. *)
Inductive result (A : Type) : Type :=
| Ok (a : A)
| Err (e : error).
Arguments Ok {A} a.
Arguments Err {A} e.

(** ** The document package, as the planner sees it *)

Module document.

(** Modelled from the spec: the [Value] tagged union of the document package
    (null, boolean, integer, float, text, binary, array, nested document).
    A float is carried as its IEEE-754 bit pattern. *)
Inductive Value : Type :=
| NullValue
| BoolValue (b : bool)
| IntegerValue (n : Z)
| DoubleValue (bits : Z)
| TextValue (s : string)
| BlobValue (b : list byte)
| ArrayValue (vs : list Value)
| DocumentValue (fs : list (string * Value)).

(** The [Document] interface.  [generateKey] uses two of its operations, and
    both can fail: the iteration over the fields (through [document.Fields])
    and [GetByField].  [Iterate] gives the (field, value) pairs in the
    document's own order. *)
Record Document : Type := mkDocument {
  Iterate : result (list (string * Value));
  GetByField : string → result Value
}.

(** Modelled from the spec: [document.Fields], the helper of the document
    package that [generateKey] calls first.  It collects the field names of
    the document and returns them in canonical (sorted) order; it fails when
    the iteration fails. *)
Definition Fields (d : Document) : result (list string) :=
  match Iterate d with
  | Ok fs => Ok (merge_sort String.le (fs.*1))
  | Err e => Err e
  end.

(** First binding of [field] in a field list. *)
Fixpoint assoc (field : string) (fs : list (string * Value)) : option Value :=
  match fs with
  | [] => None
  | (f, v) :: fs' => if decide (f = field) then Some v else assoc field fs'
  end.

Definition ErrFieldNotFound : error := "field not found"%string.

(** Modelled from the spec: a document held in memory as its list of
    (field, value) pairs in insertion order ([document.FieldBuffer]). *)
Definition FieldBuffer (fs : list (string * Value)) : Document :=
  {| Iterate := Ok fs;
     GetByField field :=
       match assoc field fs with
       | Some v => Ok v
       | None => Err ErrFieldNotFound
       end |}.

End document.

(** ** hash.Hash64 *)

Module hash.

(** A [hash.Hash64] is described by what the interface promises: [Write]
    adds bytes to the running hash, [Sum64] is a function of the bytes
    written since the last [Reset] (or since creation), and [Reset] forgets
    them.  [digest] is that function; it stays with the object for its whole
    life (for [maphash.Hash] it includes the seed). *)
Record Hash64 : Type := mkHash64 {
  digest : list byte → Z;
  written : list byte
}.

Definition Write (h : Hash64) (p : list byte) : Hash64 :=
  {| digest := digest h; written := written h ++ p |}.

Definition Sum64 (h : Hash64) : Z :=
  digest h (written h) mod 2 ^ 64.

Definition Reset (h : Hash64) : Hash64 :=
  {| digest := digest h; written := [] |}.

End hash.

(** ** planner: documentHashSet *)

Module planner.
Import document hash.

Record documentHashSet : Type := mkDocumentHashSet {
  hash : Hash64;
  set : gset Z
}.

Section WithEnvironment.

(** [hash/maphash]: the function a [maphash.Hash] computes under the seed
    it draws for itself on first use. *)
Variable maphash_sum : list byte → Z.

(** [document.ValueEncoder.Encode], by its effect on the sink: the bytes
    it writes for a value and the error it returns, if any. *)
Variable Encode : Value → list byte * option error.

(** [&maphash.Hash{}] *)
Definition maphash_Hash : Hash64 :=
  {| digest := maphash_sum; written := [] |}.

Definition newDocumentHashSet (hash : option Hash64) : documentHashSet :=
  let hash := match hash with
              | None => maphash_Hash
              | Some h => h
              end in
  {| hash := hash; set := ∅ |}.

(** The loop of [generateKey]: for each field in turn, look the value up
    and encode it into the hash; stop at the first error. *)
Fixpoint encodeFields (d : Document) (h : Hash64) (fields : list string)
  : Hash64 * option error :=
  match fields with
  | [] => (h, None)
  | field :: fields' =>
      match GetByField d field with
      | Err e => (h, Some e)
      | Ok value =>
          let '(p, err) := Encode value in
          let h := Write h p in
          match err with
          | Some e => (h, Some e)
          | None => encodeFields d h fields'
          end
      end
  end.

(** [generateKey].  The receiver is a copy of the struct, but [s.hash]
    is an interface value that points to the accumulator, so what is done
    to it is seen by the next call: the set is returned with the
    accumulator as the call leaves it.  The deferred [s.hash.Reset()] runs
    on every return. *)
Definition generateKey (s : documentHashSet) (d : Document)
  : (Z * option error) * documentHashSet :=
  let '(ret, h) :=
    match Fields d with
    | Err e => ((0, Some e), hash s)
    | Ok fields =>
        match encodeFields d (hash s) fields with
        | (h, Some e) => ((0, Some e), h)
        | (h, None) => ((Sum64 h, None), h)
        end
    end in
  (ret, {| hash := Reset h; set := set s |}).

(** [Filter].  [s.set] is a Go map, shared by every copy of the struct:
    the insertion is seen by later calls. *)
Definition Filter (s : documentHashSet) (d : Document)
  : (bool * option error) * documentHashSet :=
  let '((k, err), s) := generateKey s d in
  match err with
  | Some e => ((false, Some e), s)
  | None =>
      if decide (k ∈ set s) then ((false, None), s)
      else ((true, None), {| hash := hash s; set := {[k]} ∪ set s |})
  end.

(** *** Streams through the filter *)

(** The filter after [Filter] has been called on each document of [ds]. *)
Fixpoint feed (s : documentHashSet) (ds : list Document) : documentHashSet :=
  match ds with
  | [] => s
  | d :: ds' => feed (Filter s d).2 ds'
  end.

(** The documents of [ds] for which [Filter] answered [true], in the order
    in which they came.  [Filter] is called on every document; an operator
    that stops at the first error has fed a prefix of [ds], and sees what
    [pass] gives for that prefix. *)
Fixpoint pass (s : documentHashSet) (ds : list Document) : list Document :=
  match ds with
  | [] => []
  | d :: ds' =>
      let '((ok, _), s') := Filter s d in
      if ok then d :: pass s' ds' else pass s' ds'
  end.

(** The accumulator after [generateKey] has been called on each document
    of [ds]. *)
Definition hashAll (s : documentHashSet) (ds : list Document) : documentHashSet :=
  foldl (λ s d, (generateKey s d).2) s ds.

(** *** Surrogate keys *)

(** What [generateKey] returns for [d] when the accumulator [h] holds no
    pending bytes. *)
Definition keyResult (h : Hash64) (d : Document) : Z * option error :=
  (generateKey {| hash := Reset h; set := ∅ |} d).1.

(** The surrogate key of [d], when its computation succeeds. *)
Definition keyOf (h : Hash64) (d : Document) : option Z :=
  match keyResult h d with
  | (k, None) => Some k
  | (_, Some _) => None
  end.

(** The bytes that [generateKey] feeds to the accumulator for [d]. *)
Definition keyBytes (d : Document) : list byte :=
  match Fields d with
  | Err _ => []
  | Ok fields =>
      written (encodeFields d {| digest := λ _, 0; written := [] |} fields).1
  end.

(** A hash handed to [newDocumentHashSet] is unused when nothing has been
    written to it; [nil] stands for a new [maphash.Hash]. *)
Definition unused (hash : option Hash64) : Prop :=
  match hash with
  | None => True
  | Some h => written h = []
  end.

(** *** First-seen selection, stated on the stream *)

(** [d] has a key, and no document of [earlier] has produced it. *)
Definition new_key (key : Document → option Z)
    (earlier : list Document) (d : Document) : Prop :=
  match key d with
  | Some k => Forall (λ d', key d' ≠ Some k) earlier
  | None => False
  end.

#[global] Instance new_key_dec key earlier d : Decision (new_key key earlier d).
Proof. unfold new_key. destruct (key d); apply _. Defined.

(** The documents [ds !! i] whose key is new with respect to the first [i]
    documents, in input order. *)
Definition first_seen (key : Document → option Z) (ds : list Document)
  : list Document :=
  (filter (λ p, new_key key (take p.1 ds) p.2) (imap pair ds)).*2.

End WithEnvironment.

End planner.

(** ** Instances on which the filter can be run *)

Module sample.
Import document hash.

Definition byte_of_Z (z : Z) : byte :=
  default x00 (Byte.of_N (Z.to_N (z mod 256))).

Definition Z_of_byte (b : byte) : Z := Z.of_N (Byte.to_N b).

(** Eight bytes, most significant first. *)
Definition be64 (z : Z) : list byte :=
  (λ i, byte_of_Z (z / 2 ^ (8 * i))) <$> [7; 6; 5; 4; 3; 2; 1; 0].

(** A value encoder for the scalar values: one byte for the type, then the
    payload (integers with the sign bit flipped, so that the bytes sort as
    the numbers do).  It writes the type byte of an array or of a nested
    document and then gives up on it. *)
Definition Encode (v : Value) : list byte * option error :=
  match v with
  | NullValue => ([x05], None)
  | BoolValue b => ([x10; if b then x01 else x00], None)
  | IntegerValue n => (x20 :: be64 (n + 2 ^ 63), None)
  | DoubleValue bits => (x30 :: be64 bits, None)
  | TextValue s => (x40 :: String.list_byte_of_string s, None)
  | BlobValue b => (x50 :: b, None)
  | ArrayValue _ => ([x60], Some "unsupported type: array"%string)
  | DocumentValue _ => ([x70], Some "unsupported type: document"%string)
  end.

(** [hash/fnv]'s [New64a]: FNV-1a on 64 bits. *)
Definition fnv1a (p : list byte) : Z :=
  foldl (λ h c, (Z.lxor h (Z_of_byte c) * 1099511628211) mod 2 ^ 64)
        14695981039346656037 p.

Definition New64a : Hash64 := {| digest := fnv1a; written := [] |}.

(** A weak [Hash64]: the sum of the bytes written. *)
Definition bytesum (p : list byte) : Z :=
  foldl (λ h c, (h + Z_of_byte c) mod 2 ^ 64) 0 p.

Definition NewByteSum : Hash64 := {| digest := bytesum; written := [] |}.

(** A stand-in for the seeded function of a [maphash.Hash]: FNV-1a over
    the seed bytes followed by the data. *)
Definition maphash_sum (p : list byte) : Z :=
  fnv1a (be64 0x9e3779b97f4a7c15 ++ p).

(** A document whose storage cannot be read: every operation fails. *)
Definition ErrCorrupt : error := "corrupted document"%string.

Definition corrupt : Document :=
  {| Iterate := Err ErrCorrupt; GetByField := λ _, Err ErrCorrupt |}.

(** A document that lists a field it then cannot find. *)
Definition dangling : Document :=
  {| Iterate := Ok [("a"%string, IntegerValue 1); ("b"%string, IntegerValue 2)];
     GetByField field :=
       if decide (field = "a"%string) then Ok (IntegerValue 1)
       else Err ErrFieldNotFound |}.

(** In-memory documents. *)
Definition bar : Document :=
  FieldBuffer [("id"%string, IntegerValue 1); ("name"%string, TextValue "bar")].

(** [bar] with its fields inserted in the other order. *)
Definition bar_reordered : Document :=
  FieldBuffer [("name"%string, TextValue "bar"); ("id"%string, IntegerValue 1)].

Definition baz : Document :=
  FieldBuffer [("id"%string, IntegerValue 2); ("name"%string, TextValue "baz")].

(** The same value under two field names. *)
Definition a1 : Document := FieldBuffer [("a"%string, IntegerValue 1)].
Definition b1 : Document := FieldBuffer [("b"%string, IntegerValue 1)].

(** Two documents that differ in both fields and have the same byte sum. *)
Definition x1y2 : Document :=
  FieldBuffer [("x"%string, IntegerValue 1); ("y"%string, IntegerValue 2)].
Definition x2y1 : Document :=
  FieldBuffer [("x"%string, IntegerValue 2); ("y"%string, IntegerValue 1)].

End sample.

(** ** The query core exercised by [Example] *)

Module genji.
Import document.

Local Open Scope string_scope.

(** Modelled from the spec: a stored document, an ordered-by-insertion
    mapping from field names to values (section 3, Document). *)
Definition Row : Type := list (string * Value).

(** Modelled from the spec: an expression of the query description, given
    by what it evaluates to on a document: a value, or an error (sections
    4.4 and 6; the expression language itself belongs to the parser). *)
Definition Expr : Type := Row → result Value.

(** Modelled from the spec: the raw keys of a Store are byte sequences, and
    a Store is iterated in increasing order of the raw key bytes
    (sections 3 and 4.2). *)
Fixpoint bytes_ltb (a b : list byte) : bool :=
  match a, b with
  | _, [] => false
  | [], _ :: _ => true
  | x :: a', y :: b' =>
      (Byte.to_N x <? Byte.to_N y)%N
      || ((Byte.to_N x =? Byte.to_N y)%N && bytes_ltb a' b')
  end.

(** Modelled from the spec: [Store.put] (section 4.2) on a Store held as
    the list of its entries in key order; a later [get] or iteration sees
    the value written.  The stored bytes of a document are represented by
    the document they decode to. *)
Fixpoint put (k : list byte) (d : Row) (st : list (list byte * Row))
  : list (list byte * Row) :=
  match st with
  | [] => [(k, d)]
  | (k', d') :: st' =>
      if bytes_ltb k k' then (k, d) :: (k', d') :: st'
      else if bytes_ltb k' k then (k', d') :: put k d st'
      else (k, d) :: st'
  end.

(** Modelled from the spec: a Table (section 3): the explicit primary key
    it declares, if any, as the function that reads the key of a document;
    the one Store it owns; and the last surrogate key it has generated. *)
Record Table : Type := mkTable {
  primaryKey : option (Row → Value);
  store : list (list byte * Row);
  lastKey : Z
}.

(** Modelled from the spec: the error of an absent table ([NotFoundError],
    section 7). *)
Definition ErrTableNotFound : error := "table not found".

Section DocumentStore.

(** The Canonical Encoder on primary keys (section 4.1). *)
Variable encodeKey : Value → list byte.

(** Modelled from the spec: [insert(table, document) -> primary key]
    (section 4.3): a table that declares no explicit primary key generates
    a new, larger surrogate key; the key is encoded and the document is
    written with [Store.put]. *)
Definition insert (t : Table) (d : Row) : Value * Table :=
  match primaryKey t with
  | Some pk =>
      (pk d,
       {| primaryKey := primaryKey t;
          store := put (encodeKey (pk d)) d (store t);
          lastKey := lastKey t |})
  | None =>
      let k := (lastKey t + 1)%Z in
      (IntegerValue k,
       {| primaryKey := primaryKey t;
          store := put (encodeKey (IntegerValue k)) d (store t);
          lastKey := k |})
  end.

(** Modelled from the spec: the documents inserted one after the other
    (section 4.3), as the INSERT statements of [Example] do. *)
Definition insertAll (t : Table) (ds : list Row) : Table :=
  foldl (λ t d, (insert t d).2) t ds.

End DocumentStore.

(** Modelled from the spec: an item of a projection list (sections 4.4 and
    4.5): every field of the document, or one named field with the
    expression that gives its value. *)
Inductive Projected : Type :=
| Wildcard
| Named (name : string) (expr : Expr).

(** Modelled from the spec: the plan operators of the scenario (section
    4.4).  [Scan] wraps the iteration over a table, and holds the entries
    still to come; [Filter] and [Projection] wrap a child operator. *)
Inductive Operator : Type :=
| Scan (cursor : list (list byte * Row))
| Filter (pred : Expr) (child : Operator)
| Projection (items : list Projected) (child : Operator).

(** Modelled from the spec: what [next()] gives (section 4.4): a document,
    with the operator as the pull has left it; the end of the stream; or
    the error that [err()] then reports. *)
Inductive Pulled : Type :=
| Next (d : Row) (op : Operator)
| EndOfStream
| Failed (e : error).

(** Modelled from the spec: a predicate holds when it evaluates to the
    boolean true; null and non-boolean values do not count (section 4.4,
    Filter). *)
Definition isTrue (v : Value) : bool :=
  match v with
  | BoolValue true => true
  | _ => false
  end.

(** Modelled from the spec: the documents a filter forwards are those for
    which the predicate evaluates to a true boolean (section 4.4). *)
Definition satisfies (pred : Expr) (d : Row) : bool :=
  match pred d with
  | Ok v => isTrue v
  | Err _ => false
  end.

(** Modelled from the spec: Projection rewrites a document to the fields
    of the projection list, and fails only when an expression fails
    (section 4.4). *)
Fixpoint project (items : list Projected) (d : Row) : result Row :=
  match items with
  | [] => Ok []
  | Wildcard :: items' =>
      match project items' d with
      | Ok r => Ok (d ++ r)%list
      | Err e => Err e
      end
  | Named name expr :: items' =>
      match expr d with
      | Err e => Err e
      | Ok v =>
          match project items' d with
          | Ok r => Ok ((name, v) :: r)
          | Err e => Err e
          end
      end
  end.

(** Modelled from the spec: the pull contract [next()] of the three
    operators (section 4.4).  A scan yields its entries in key order.  A
    filter pulls its child until a document satisfies the predicate, and
    forwards that document; a document on which the predicate is null or
    not a boolean is skipped without an error.  A projection rewrites the
    document its child yields.  The first error stops the operator (section
    7).  [fuel] bounds the number of nested pulls; [None] means it ran
    out. *)
Fixpoint next (fuel : nat) (op : Operator) : option Pulled :=
  match fuel with
  | O => None
  | S fuel =>
      match op with
      | Scan [] => Some EndOfStream
      | Scan ((_, d) :: cursor) => Some (Next d (Scan cursor))
      | Filter pred child =>
          match next fuel child with
          | None => None
          | Some EndOfStream => Some EndOfStream
          | Some (Failed e) => Some (Failed e)
          | Some (Next d child') =>
              match pred d with
              | Err e => Some (Failed e)
              | Ok v =>
                  if isTrue v then Some (Next d (Filter pred child'))
                  else next fuel (Filter pred child')
              end
          end
      | Projection items child =>
          match next fuel child with
          | None => None
          | Some EndOfStream => Some EndOfStream
          | Some (Failed e) => Some (Failed e)
          | Some (Next d child') =>
              match project items d with
              | Err e => Some (Failed e)
              | Ok d' => Some (Next d' (Projection items child'))
              end
          end
      end
  end.

(** Modelled from the spec: the Executor (section 4.6) drives the root
    operator by repeated [next()] until the end of the stream, surfaces each
    document, and stops at the first error, which it returns with the
    documents surfaced before it. *)
Fixpoint execute (fuel : nat) (op : Operator) : option (list Row * option error) :=
  match fuel with
  | O => None
  | S fuel' =>
      match next fuel op with
      | None => None
      | Some EndOfStream => Some ([], None)
      | Some (Failed e) => Some ([], Some e)
      | Some (Next d op') =>
          match execute fuel' op' with
          | None => None
          | Some (ds, err) => Some (d :: ds, err)
          end
      end
  end.

(** Modelled from the spec: the stream a filter makes of the stream of its
    child: the documents that satisfy the predicate, in the order of the
    child (section 5), up to the first error (section 7). *)
Fixpoint filterStream (pred : Expr) (ds : list Row) (err : option error)
  : list Row * option error :=
  match ds with
  | [] => ([], err)
  | d :: ds' =>
      match pred d with
      | Err e => ([], Some e)
      | Ok v =>
          if isTrue v then
            let '(out, err') := filterStream pred ds' err in (d :: out, err')
          else filterStream pred ds' err
      end
  end.

(** Modelled from the spec: the stream a projection makes of the stream of
    its child: each document rewritten, in the order of the child (section
    5), up to the first error (section 7). *)
Fixpoint projectStream (items : list Projected) (ds : list Row)
    (err : option error) : list Row * option error :=
  match ds with
  | [] => ([], err)
  | d :: ds' =>
      match project items d with
      | Err e => ([], Some e)
      | Ok d' =>
          let '(out, err') := projectStream items ds' err in (d' :: out, err')
      end
  end.

(** Modelled from the spec: the documents an operator yields and its final
    error slot (section 6, document iteration result): a scan yields the
    documents of its Store in key order (section 5). *)
Fixpoint stream (op : Operator) : list Row * option error :=
  match op with
  | Scan cursor => (cursor.*2, None)
  | Filter pred child =>
      let '(ds, err) := stream child in filterStream pred ds err
  | Projection items child =>
      let '(ds, err) := stream child in projectStream items ds err
  end.

(** The number of operators above the scan, and the number of entries the
    scan has still to yield: together they bound the fuel a pull needs. *)
Fixpoint depth (op : Operator) : nat :=
  match op with
  | Scan _ => O
  | Filter _ child | Projection _ child => S (depth child)
  end.

Fixpoint remaining (op : Operator) : nat :=
  match op with
  | Scan cursor => length cursor
  | Filter _ child | Projection _ child => remaining child
  end.

(** Modelled from the spec: the logical query description the planner
    consumes (sections 4.5 and 6), for a query over one table: the
    projection list, the source table and the predicate. *)
Record Select : Type := mkSelect {
  selFields : list Projected;
  selTable : string;
  selWhere : option Expr
}.

(** Modelled from the spec: the Planner (section 4.5), for a catalog with
    no index: a full table scan, a Filter for the predicate, and a
    Projection when the query gives a projection list.  A query on an
    absent table fails before the execution begins. *)
Definition plan (db : gmap string Table) (q : Select) : result Operator :=
  match db !! selTable q with
  | None => Err ErrTableNotFound
  | Some t =>
      let op := Scan (store t) in
      let op := match selWhere q with
                | Some pred => Filter pred op
                | None => op
                end in
      Ok (match selFields q with
          | [] => op
          | items => Projection items op
          end)
  end.

(** Modelled from the spec: a query is planned, and the Executor drives the
    plan (sections 4.5 and 4.6). *)
Definition Query (fuel : nat) (db : gmap string Table) (q : Select)
  : option (list Row * option error) :=
  match plan db q with
  | Err e => Some ([], Some e)
  | Ok op => execute fuel op
  end.

(** The rows that [Example] inserts (l.35-43; [Age] is zero where the
    struct literal leaves it out) and the query it runs (l.45), with the
    predicate [Name = "bar"] as [pred] and the projection list as
    [fields]. *)
Definition user (ID : Z) (Name : string) (Age : Z) : Row :=
  [("ID", IntegerValue ID); ("Name", TextValue Name); ("Age", IntegerValue Age)].

Definition exampleRows : list Row :=
  [user 10 "foo" 15; user 1 "bar" 100; user 2 "baz" 0].

Definition exampleQuery (fields : list Projected) (pred : Expr) : Select :=
  {| selFields := fields; selTable := "user"; selWhere := Some pred |}.

(** Modelled from the spec: what it is for [pred] to be the predicate
    [field = text] (section 8, the scenario): on a document that holds a
    text under [field], it is the boolean that tells whether that text is
    [text].  What it gives on other documents is left open. *)
Definition fieldEqualsText (pred : Expr) (field text : string) : Prop :=
  ∀ (d : Row) (s : string),
    assoc field d = Some (TextValue s) →
    pred d = Ok (BoolValue (bool_decide (s = text))).

(** Modelled from the spec: what it is for [expr] to be the field [field]
    in a projection list (section 4.4): on a document that holds the field,
    it is the value of the field.  What it gives on other documents is left
    open. *)
Definition fieldSelects (expr : Expr) (field : string) : Prop :=
  ∀ (d : Row) (v : Value), assoc field d = Some v → expr d = Ok v.

(** Modelled from the spec: the projection lists that ask for all the
    fields of a [user] (section 8, "projecting all fields"): the wildcard,
    no list at all, or the three fields by name. *)
Definition allFields (fields : list Projected) : Prop :=
  fields = [Wildcard]
  ∨ fields = []
  ∨ ∃ id name age,
      fields = [Named "ID" id; Named "Name" name; Named "Age" age]
      ∧ fieldSelects id "ID" ∧ fieldSelects name "Name" ∧ fieldSelects age "Age".

(** Modelled from the spec: a new table (section 3), as [CREATE TABLE user]
    of [Example] makes it: no document, and no declared primary key. *)
Definition emptyTable : Table :=
  {| primaryKey := None; store := []; lastKey := 0 |}.

End genji.

(** ** cmd/genji: the root action and the restore action *)

Module cli.

Local Open Scope string_scope.

(** [strings.HasSuffix]:
    [len(s) >= len(suffix) && s[len(s)-len(suffix):] == suffix]. *)
Definition HasSuffix (s suffix : string) : bool :=
  bool_decide (String.length suffix ≤ String.length s)%nat
  && bool_decide
       (String.substring (String.length s - String.length suffix)
                  (String.length suffix) s = suffix).

(** [c.Args().First()]: the first positional argument, or the empty string
    when there is none. *)
Definition First (args : list string) : string :=
  match args with
  | [] => ""
  | a :: _ => a
  end.

(** [shell.Options] *)
Record Options : Type := mkOptions {
  Engine : string;
  DBPath : string
}.

(** What the root action does: it returns [cli.NewExitError message code],
    or it hands over to [shell.Run] with the options it has chosen. *)
Inductive RootOutcome : Type :=
| NewExitError (message : string) (exitCode : Z)
| shellRun (opts : Options).

Definition rootAction (useBolt useBadger : bool) (args : list string)
  : RootOutcome :=
  if useBolt && useBadger then
    NewExitError "cannot use bolt and badger options at the same time" 2
  else
    let dbpath := First args in
    if (useBolt || useBadger) && bool_decide (dbpath = "") then
      NewExitError "db path required when using bolt or badger" 2
    else
      let engine := "memory" in
      let engine := if useBolt || negb (bool_decide (dbpath = "")) then "bolt" else engine in
      let engine := if useBadger then "badger" else engine in
      shellRun {| Engine := engine; DBPath := dbpath |}.

(** The errors of the restore action.  The first two carry the argument of
    their format string:
    - [UnsupportedEngine e]: "unsupported engine %q, only 'bolt' or 'badger'
      can be used";
    - [BadArguments usage]: "bad arguments: %v";
    - [NotSQLFile]: "first argument should be an SQL file";
    - [NotDBFile]: "second argument should be a database file";
    - [Other e]: an error of [os.Open] or of [runRestoreCommand]. *)
Inductive restoreError : Type :=
| UnsupportedEngine (engine : string)
| BadArguments (usageText : string)
| NotSQLFile
| NotDBFile
| Other (e : error).

Definition restoreUsageText : string := "genji restore [options] dumpFile dbPath".

Section Restore.

(** An open file. *)
Variable File : Type.

(** [os.Open] *)
Variable Open : string → result File.

(** [runRestoreCommand], by its result. *)
Variable runRestoreCommand : File → string → string → string → option error.

(** The restore action, with the paths it has passed to [os.Open], in
    order, and the error it returns. *)
Definition restoreAction (engine table : string) (args : list string)
  : list string * option restoreError :=
  if negb (bool_decide (engine = "bolt") || bool_decide (engine = "badger")) then
    ([], Some (UnsupportedEngine engine))
  else if negb (bool_decide (length args = 2%nat)) then
    ([], Some (BadArguments restoreUsageText))
  else if negb (HasSuffix (args !!! 0%nat) ".sql") then
    ([], Some NotSQLFile)
  else if negb (HasSuffix (args !!! 1%nat) ".db") then
    ([], Some NotDBFile)
  else
    match Open (args !!! 0%nat) with
    | Err e => ([args !!! 0%nat], Some (Other e))
    | Ok file =>
        ([args !!! 0%nat],
         Other <$> runRestoreCommand file engine table (args !!! 1%nat))
    end.

End Restore.

Arguments restoreAction {File} Open runRestoreCommand engine table args.

(** [debug.Module] and [debug.BuildInfo], as far as the version action
    reads them. *)
Record BuildModule : Type := mkBuildModule {
  Path : string;
  Version : string
}.

Record BuildInfo : Type := mkBuildInfo {
  Main : BuildModule;
  Deps : list BuildModule
}.

Definition genjiModulePath : string := "github.com/genjidb/genji".

(** The loop of the version action over [info.Deps]: it skips the modules
    with another path and stops at the first one with genji's path, whose
    version it takes; [genjiVersion] keeps its zero value when there is
    none. *)
Fixpoint genjiVersionOf (deps : list BuildModule) : string :=
  match deps with
  | [] => ""
  | dep :: deps' =>
      if bool_decide (Path dep ≠ genjiModulePath) then genjiVersionOf deps'
      else Version dep
  end.

Definition newline : string := String (Ascii.ascii_of_nat 10) "".
Definition dquote : string := String (Ascii.ascii_of_nat 34) "".

(** The version action: what it prints on the standard output and the
    error it returns.  [info] is [None] when [debug.ReadBuildInfo] answers
    [!ok]. *)
Definition versionAction (info : option BuildInfo) : string * option error :=
  match info with
  | None =>
      ("version not available in GOPATH mode; use " +:+ dquote +:+ "go get"
       +:+ dquote +:+ " with Go modules enabled" +:+ newline,
       None)
  | Some info =>
      let cliVersion := Version (Main info) in
      let genjiVersion := genjiVersionOf (Deps info) in
      ("Genji " +:+ genjiVersion +:+ newline
       +:+ "Genji CLI " +:+ cliVersion +:+ newline,
       None)
  end.

End cli.

(** * Properties *)

(** ** Lists *)

Section list_facts.
Context {A : Type}.

(** Selecting by position: two predicates that agree position by position
    select the same elements. *)
Lemma filter_imap_ext (P Q : nat * A → Prop)
    `{!∀ x, Decision (P x)} `{!∀ x, Decision (Q x)} (f g : nat → nat) (l : list A) :
  (∀ i x, l !! i = Some x → P (f i, x) ↔ Q (g i, x)) →
  (filter P (imap (λ i x, (f i, x)) l)).*2 = (filter Q (imap (λ i x, (g i, x)) l)).*2.
Proof.
  revert f g. induction l as [|a l IH]; intros f g HPQ; [done|].
  cbn [imap]. rewrite !filter_cons.
  pose proof (HPQ 0%nat a eq_refl) as Hhead.
  specialize (IH (f ∘ S) (g ∘ S) (λ i x Hi, HPQ (S i) x Hi)).
  unfold compose in IH |- *.
  destruct (decide (P (f 0%nat, a))), (decide (Q (g 0%nat, a))); try tauto;
    cbn; by rewrite IH.
Qed.

Lemma filter_imap_cons (P : nat * A → Prop) `{!∀ x, Decision (P x)} a (l : list A) :
  (filter P (imap pair (a :: l))).*2 =
  (if decide (P (0%nat, a)) then [a] else []) ++ (filter P (imap (pair ∘ S) l)).*2.
Proof. cbn [imap]. rewrite filter_cons. by destruct (decide _). Qed.

End list_facts.

(** ** The hash set *)

Section planner_facts.
Import document hash planner.

Variable maphash_sum : list byte → Z.
Variable Encode : Value → list byte * option error.

Implicit Types (s : documentHashSet) (d : Document) (h : Hash64).

Lemma Reset_clean h : written h = [] → Reset h = h.
Proof. destruct h as [dg w]; cbn; by intros ->. Qed.

Lemma encodeFields_digest d h fields :
  digest (encodeFields Encode d h fields).1 = digest h.
Proof.
  revert h; induction fields as [|f fields IH]; intros h; cbn; [done|].
  destruct (GetByField d f) as [v|e]; [|done].
  destruct (Encode v) as [p [e|]]; [done|]. by rewrite IH.
Qed.

Lemma encodeFields_app d h fields1 fields2 :
  encodeFields Encode d h (fields1 ++ fields2) =
  match encodeFields Encode d h fields1 with
  | (h', None) => encodeFields Encode d h' fields2
  | (h', Some e) => (h', Some e)
  end.
Proof.
  revert h; induction fields1 as [|f fields1 IH]; intros h; cbn; [done|].
  destruct (GetByField d f) as [v|e]; [|done].
  destruct (Encode v) as [p [e|]]; [done|]. apply IH.
Qed.

(** The bytes in the accumulator after the loop are those it held before,
    followed by bytes that depend on the document alone; so does the
    error. *)
Lemma encodeFields_written d h h' fields :
  written h' = [] →
  written (encodeFields Encode d h fields).1 =
    written h ++ written (encodeFields Encode d h' fields).1
  ∧ (encodeFields Encode d h fields).2 = (encodeFields Encode d h' fields).2.
Proof.
  revert h h'; induction fields as [|f fields IH]; intros h h' Hh'; cbn.
  { by rewrite Hh', app_nil_r. }
  destruct (GetByField d f) as [v|e]; cbn; [|by rewrite Hh', app_nil_r].
  destruct (Encode v) as [p [e|]]; cbn; [by rewrite Hh'|].
  destruct (IH (Write h p) (Reset h) eq_refl) as [Hw He].
  destruct (IH (Write h' p) (Reset h) eq_refl) as [Hw' He'].
  rewrite Hw, Hw', He, He'. cbn. by rewrite Hh', <-(assoc_L (++)).
Qed.

Lemma generateKey_hash s d :
  hash (generateKey Encode s d).2 = Reset (hash s).
Proof.
  unfold generateKey. destruct (Fields d) as [fields|e]; cbn; [|done].
  pose proof (encodeFields_digest d (hash s) fields) as Hd.
  destruct (encodeFields Encode d (hash s) fields) as [h' [e|]]; cbn in *;
    unfold Reset; by rewrite Hd.
Qed.

Lemma generateKey_set s d : set (generateKey Encode s d).2 = set s.
Proof.
  unfold generateKey. destruct (Fields d) as [fields|e]; cbn; [|done].
  by destruct (encodeFields Encode d (hash s) fields) as [h' [e|]].
Qed.

(** Only the accumulator of the set matters to the key. *)
Lemma generateKey_result s d :
  written (hash s) = [] → (generateKey Encode s d).1 = keyResult Encode (hash s) d.
Proof.
  intros Hw. unfold keyResult. rewrite (Reset_clean _ Hw).
  unfold generateKey; cbn. destruct (Fields d) as [fields|e]; cbn; [|done].
  by destruct (encodeFields Encode d (hash s) fields) as [h' [e|]].
Qed.

Lemma generateKey_clean s d :
  written (hash s) = [] → generateKey Encode s d = (keyResult Encode (hash s) d, s).
Proof.
  intros Hw. apply injective_projections; cbn; [by apply generateKey_result|].
  pose proof (generateKey_hash s d) as Hh. pose proof (generateKey_set s d) as Hs.
  rewrite (Reset_clean _ Hw) in Hh.
  destruct (generateKey Encode s d).2 as [h' S'], s as [h S]; cbn in *; congruence.
Qed.

(** [Filter] on a set whose accumulator holds no pending bytes. *)
Lemma Filter_clean s d :
  written (hash s) = [] →
  Filter Encode s d =
    match keyResult Encode (hash s) d with
    | (_, Some e) => ((false, Some e), s)
    | (k, None) =>
        if decide (k ∈ set s) then ((false, None), s)
        else ((true, None), {| hash := hash s; set := {[k]} ∪ set s |})
    end.
Proof.
  intros Hw. unfold Filter. rewrite (generateKey_clean _ _ Hw).
  by destruct (keyResult Encode (hash s) d) as [k [e|]].
Qed.

Lemma Filter_hash s d : hash (Filter Encode s d).2 = Reset (hash s).
Proof.
  unfold Filter. pose proof (generateKey_hash s d) as Hh.
  destruct (generateKey Encode s d) as [[k [e|]] s']; cbn in *; [done|].
  by destruct (decide (k ∈ set s')).
Qed.

Lemma Filter_set_mono s d : set s ⊆ set (Filter Encode s d).2.
Proof.
  unfold Filter. pose proof (generateKey_set s d) as Hs.
  destruct (generateKey Encode s d) as [[k [e|]] s']; cbn in *;
    rewrite <-Hs; [done|].
  destruct (decide (k ∈ set s')); cbn; [done|]. apply union_subseteq_r.
Qed.

Lemma feed_hash s ds : written (hash s) = [] → hash (feed Encode s ds) = hash s.
Proof.
  revert s; induction ds as [|d ds IH]; intros s Hw; cbn; [done|].
  rewrite IH; rewrite Filter_hash; [|done]. by apply Reset_clean.
Qed.

Lemma feed_set_mono s ds : set s ⊆ set (feed Encode s ds).
Proof.
  revert s; induction ds as [|d ds IH]; intros s; cbn; [done|].
  etrans; [apply (Filter_set_mono s d)|apply IH].
Qed.

Lemma hashAll_hash s ds :
  written (hash s) = [] → hash (hashAll Encode s ds) = hash s.
Proof.
  unfold hashAll. revert s; induction ds as [|d ds IH]; intros s Hw; cbn; [done|].
  rewrite IH; rewrite generateKey_hash; [|done]. by apply Reset_clean.
Qed.

Lemma newDocumentHashSet_clean hash0 :
  unused hash0 → written (hash (newDocumentHashSet maphash_sum hash0)) = [].
Proof. by destruct hash0. Qed.

(** The key of a document is the digest of the bytes fed for it. *)
Lemma keyOf_keyBytes h d k :
  keyOf Encode h d = Some k → k = digest h (keyBytes Encode d) mod 2 ^ 64.
Proof.
  unfold keyOf, keyResult, keyBytes, generateKey. cbn.
  destruct (Fields d) as [fields|e]; cbn; [|done].
  destruct (encodeFields_written d (Reset h)
              {| digest := λ _, 0; written := [] |} fields eq_refl) as [Hw _].
  pose proof (encodeFields_digest d (Reset h) fields) as Hd.
  destruct (encodeFields Encode d (Reset h) fields) as [h' [e|]]; cbn in *; [done|].
  intros [= <-]. unfold Sum64. by rewrite Hd, Hw.
Qed.

(** *** The accumulator is reset by every call *)

(** C5.  Whatever [generateKey] returns for a document, a key or an error,
    it leaves the accumulator reset (and the key set as it was); hence the
    result computed for a document [d] by a set made from an unused hash
    does not depend on the documents hashed before [d]. *)
Theorem generateKey_resets_accumulator :
  (∀ s d,
     hash (generateKey Encode s d).2 = Reset (hash s)
     ∧ written (hash (generateKey Encode s d).2) = []
     ∧ set (generateKey Encode s d).2 = set s)
  ∧ (∀ hash0 ds1 ds2 d,
       unused hash0 →
       (generateKey Encode (hashAll Encode (newDocumentHashSet maphash_sum hash0) ds1) d).1
       = (generateKey Encode (hashAll Encode (newDocumentHashSet maphash_sum hash0) ds2) d).1).
Proof.
  split.
  - intros s d. split; [apply generateKey_hash|].
    split; [by rewrite generateKey_hash|apply generateKey_set].
  - intros hash0 ds1 ds2 d Hfresh.
    pose proof (newDocumentHashSet_clean hash0 Hfresh) as Hw.
    rewrite !generateKey_result; rewrite ?hashAll_hash; done.
Qed.

(** *** Errors of the key computation *)

(** C6.  When [generateKey] fails with [e], [Filter] returns [false] with
    [e] and the key set is unchanged.  [generateKey] fails with the error of
    the field enumeration, with the error of the first field lookup that
    fails, and with the error of the first value encoding that fails. *)
Theorem Filter_returns_key_error s d e :
  ((generateKey Encode s d).1.2 = Some e →
     (Filter Encode s d).1 = (false, Some e)
     ∧ set (Filter Encode s d).2 = set s)
  ∧ (Fields d = Err e → (generateKey Encode s d).1 = (0, Some e))
  ∧ (∀ before field after,
       Fields d = Ok (before ++ field :: after) →
       (encodeFields Encode d (hash s) before).2 = None →
       GetByField d field = Err e →
       (generateKey Encode s d).1 = (0, Some e))
  ∧ (∀ before field after value p,
       Fields d = Ok (before ++ field :: after) →
       (encodeFields Encode d (hash s) before).2 = None →
       GetByField d field = Ok value →
       Encode value = (p, Some e) →
       (generateKey Encode s d).1 = (0, Some e)).
Proof.
  split; [|split; [|split]].
  - unfold Filter. pose proof (generateKey_set s d) as Hs.
    destruct (generateKey Encode s d) as [[k [e'|]] s']; cbn in *; [|done].
    by intros [= ->].
  - unfold generateKey. by intros ->.
  - intros before field after HF Hbefore Hget. unfold generateKey.
    rewrite HF, encodeFields_app.
    destruct (encodeFields Encode d (hash s) before) as [h' [e'|]]; [done|].
    cbn. by rewrite Hget.
  - intros before field after value p HF Hbefore Hget Henc. unfold generateKey.
    rewrite HF, encodeFields_app.
    destruct (encodeFields Encode d (hash s) before) as [h' [e'|]]; [done|].
    cbn. by rewrite Hget, Henc.
Qed.

(** *** First-seen selection *)

Lemma new_key_head (key : Document → option Z) earlier d :
  new_key key earlier d ↔
  ∃ k, key d = Some k ∧ ∀ d', d' ∈ earlier → key d' ≠ Some k.
Proof.
  unfold new_key. destruct (key d) as [k|].
  - rewrite Forall_forall. split; [by exists k|]. by intros (k' & [= <-] & ?).
  - split; [done|]. by intros (k' & ? & ?).
Qed.

(** The invariant of a run: the accumulator is clean and the set holds the
    keys of the documents seen so far. *)
Lemma pass_from h seen ds s :
  written h = [] →
  hash s = h →
  (∀ k, k ∈ set s ↔ ∃ d', d' ∈ seen ∧ keyOf Encode h d' = Some k) →
  pass Encode s ds =
  (filter (λ p, new_key (keyOf Encode h) (seen ++ take p.1 ds) p.2)
          (imap pair ds)).*2.
Proof.
  intros Hw. revert seen s.
  induction ds as [|d ds IH]; intros seen s Hh Hset; [done|].
  assert (∀ seen' : list Document,
    (filter (λ p, new_key (keyOf Encode h) (seen ++ take p.1 (d :: ds)) p.2)
            (imap (pair ∘ S) ds)).*2 =
    (filter (λ p, new_key (keyOf Encode h) ((seen ++ [d]) ++ take p.1 ds) p.2)
            (imap pair ds)).*2) as Hshift.
  { intros _. apply (filter_imap_ext _ _ S id). intros i x _. cbn.
    by rewrite <-(assoc_L (++)). }
  cbn [pass]. rewrite filter_imap_cons, (Hshift []). cbn [take fst snd].
  rewrite app_nil_r. rewrite Filter_clean by (by rewrite Hh). rewrite Hh.
  destruct (keyResult Encode h d) as [k [e|]] eqn:Hk.
  - (* no key: the document is dropped and the set is unchanged *)
    assert (keyOf Encode h d = None) as Hnone by (unfold keyOf; by rewrite Hk).
    rewrite decide_False by (rewrite new_key_head; naive_solver).
    apply IH; [done|]. intros k'. rewrite Hset.
    setoid_rewrite elem_of_app. setoid_rewrite list_elem_of_singleton.
    naive_solver.
  - assert (keyOf Encode h d = Some k) as Hsome by (unfold keyOf; by rewrite Hk).
    destruct (decide (k ∈ set s)) as [Hin|Hnin].
    + (* the key has been produced before *)
      rewrite decide_False; last first.
      { rewrite new_key_head. apply Hset in Hin as (d' & ? & ?). naive_solver. }
      apply IH; [done|]. intros k'. rewrite Hset.
      setoid_rewrite elem_of_app. setoid_rewrite list_elem_of_singleton.
      split; [naive_solver|]. intros (d' & [?| ->] & Hd'); [eauto|].
      apply Hset. congruence.
    + (* a new key *)
      rewrite decide_True; last first.
      { rewrite new_key_head. exists k. split; [done|].
        intros d' ? ?. apply Hnin, Hset. eauto. }
      cbn [app]. f_equal. apply IH; [done|]. intros k'. cbn [set].
      rewrite elem_of_union, elem_of_singleton, Hset.
      setoid_rewrite elem_of_app. setoid_rewrite list_elem_of_singleton.
      split.
      * intros [->|(d' & ? & ?)]; eauto.
      * intros (d' & [?| ->] & Hd'); [eauto|]. left. congruence.
Qed.

(** C1.  A filter made by [newDocumentHashSet] from an unused hash passes,
    of a stream [ds], exactly the documents whose key no earlier document
    of the stream has produced, in input order.  In particular, of two
    documents with the same key (the same document inserted twice) only the
    first passes, and two documents with different keys both pass. *)
Theorem Filter_passes_first_seen hash0 ds :
  unused hash0 →
  let s0 := newDocumentHashSet maphash_sum hash0 in
  let key := keyOf Encode (hash s0) in
  pass Encode s0 ds = first_seen key ds
  ∧ (∀ d d' k, key d = Some k → key d' = Some k → pass Encode s0 [d; d'] = [d])
  ∧ (∀ d1 d2 k1 k2,
       key d1 = Some k1 → key d2 = Some k2 → k1 ≠ k2 →
       pass Encode s0 [d1; d2] = [d1; d2]).
Proof.
  intros Hfresh s0 key.
  assert (∀ ds', pass Encode s0 ds' = first_seen key ds') as Hpass.
  { intros ds'. unfold first_seen, key.
    apply (pass_from (hash s0) [] ds' s0);
      [by apply newDocumentHashSet_clean|done|].
    intros k. cbn. split; [set_solver|]. intros (d' & Hd' & _).
    by apply elem_of_nil in Hd'. }
  split; [apply Hpass|]. split.
  - intros d d' k Hd Hd'. rewrite Hpass. unfold first_seen.
    cbn [imap]. rewrite !filter_cons, filter_nil. cbn [take fst snd compose].
    rewrite decide_True; last first.
    { apply new_key_head. exists k. split; [done|]. by intros ? ?%elem_of_nil. }
    rewrite decide_False; [done|].
    rewrite new_key_head. intros (k' & Hk' & Hnew).
    apply (Hnew d); [by left|congruence].
  - intros d1 d2 k1 k2 Hd1 Hd2 Hne. rewrite Hpass. unfold first_seen.
    cbn [imap]. rewrite !filter_cons, filter_nil. cbn [take fst snd compose].
    rewrite decide_True; last first.
    { apply new_key_head. exists k1. split; [done|]. by intros ? ?%elem_of_nil. }
    rewrite decide_True; [done|].
    apply new_key_head. exists k2. split; [done|].
    intros d' Hd'. apply list_elem_of_singleton in Hd' as ->. congruence.
Qed.

(** *** Collisions *)

(** C3.  In a filter made from an unused hash, once a document [d1] has
    passed, a document [d2] with the same key is answered [false] without
    an error, however many documents came between them: the filter cannot
    tell [d2] from [d1]. *)
Theorem collision_is_filtered_out hash0 ds0 ds d1 d2 k :
  unused hash0 →
  let s := feed Encode (newDocumentHashSet maphash_sum hash0) ds0 in
  keyOf Encode (hash s) d1 = Some k →
  keyOf Encode (hash s) d2 = Some k →
  (Filter Encode s d1).1 = (true, None) →
  (Filter Encode (feed Encode (Filter Encode s d1).2 ds) d2).1 = (false, None).
Proof.
  intros Hfresh s Hk1 Hk2 Hpass.
  assert (written (hash s) = []) as Hw.
  { unfold s. rewrite feed_hash; by apply newDocumentHashSet_clean. }
  assert (∀ d, keyOf Encode (hash s) d = Some k →
               keyResult Encode (hash s) d = (k, None)) as Hres.
  { intros d. unfold keyOf.
    destruct (keyResult Encode (hash s) d) as [k' [e|]]; [done|]. by intros [= ->]. }
  pose proof (Filter_hash s d1) as Hh1. rewrite (Reset_clean _ Hw) in Hh1.
  assert (k ∈ set (Filter Encode s d1).2) as Hin.
  { revert Hpass. rewrite (Filter_clean _ _ Hw), (Hres _ Hk1).
    destruct (decide (k ∈ set s)); [done|]. intros _. cbn. set_solver. }
  set (s1 := (Filter Encode s d1).2) in *.
  assert (written (hash s1) = []) as Hw1 by (by rewrite Hh1).
  assert (hash (feed Encode s1 ds) = hash s) as Hh2 by (by rewrite feed_hash).
  rewrite Filter_clean by (by rewrite Hh2). rewrite Hh2, (Hres _ Hk2).
  rewrite decide_True; [done|]. by apply (feed_set_mono s1 ds).
Qed.

(** *** The default hash *)

(** C7, amended.  With no hash given, the set uses a new [maphash.Hash] and
    starts with no key; the first [Filter] call answers [true] for every
    document whose key can be computed. *)
Theorem newDocumentHashSet_nil_default :
  hash (newDocumentHashSet maphash_sum None) = maphash_Hash maphash_sum
  ∧ digest (hash (newDocumentHashSet maphash_sum None)) = maphash_sum
  ∧ set (newDocumentHashSet maphash_sum None) = ∅
  ∧ (∀ d, (generateKey Encode (newDocumentHashSet maphash_sum None) d).1.2 = None →
          (Filter Encode (newDocumentHashSet maphash_sum None) d).1 = (true, None)).
Proof.
  split; [done|]. split; [done|]. split; [done|]. intros d. unfold Filter.
  pose proof (generateKey_set (newDocumentHashSet maphash_sum None) d) as Hs.
  destruct (generateKey Encode _ d) as [[k [e|]] s']; cbn in *; [done|].
  intros _. rewrite Hs. by rewrite decide_False by set_solver.
Qed.

(** *** What the key is computed over *)

(** The loop looks at the document only through the values it finds under
    the fields, in the order of the fields. *)
Lemma encodeFields_values d1 d2 h fields1 fields2 :
  GetByField d1 <$> fields1 = GetByField d2 <$> fields2 →
  encodeFields Encode d1 h fields1 = encodeFields Encode d2 h fields2.
Proof.
  revert h fields2. induction fields1 as [|f1 fields1 IH];
    intros h [|f2 fields2] Hvs; try done.
  injection Hvs as Hv Hvs. cbn. rewrite Hv.
  destruct (GetByField d2 f2) as [v|e]; [|done].
  destruct (Encode v) as [p [e|]]; [done|]. by apply IH.
Qed.

(** When every lookup and every encoding succeeds, the accumulator receives
    the encodings of the values, one after the other. *)
Lemma encodeFields_ok d h fields values :
  Forall2 (λ f v, GetByField d f = Ok v) fields values →
  Forall (λ v, (Encode v).2 = None) values →
  encodeFields Encode d h fields =
    ({| digest := digest h;
        written := written h ++ mjoin ((λ v, (Encode v).1) <$> values) |}, None).
Proof.
  intros Hget. revert h. induction Hget as [|f v fields values Hf _ IH];
    intros h Henc; cbn.
  { rewrite app_nil_r. by destruct h. }
  apply Forall_cons in Henc as [Hv Henc]. rewrite Hf.
  destruct (Encode v) as [p [e|]]; cbn in *; [done|].
  rewrite (IH _ Henc). cbn. by rewrite <-(assoc_L (++)).
Qed.

(** C2, amended.  The key is the digest of the encodings of the document's
    values, taken in the order of the sorted field names; the names are not
    hashed.  Two documents that hold the same values in that order get the
    same result from [generateKey], whatever their fields are called. *)
Theorem generateKey_hashes_values_only s d1 d2 fields1 fields2 :
  Fields d1 = Ok fields1 →
  Fields d2 = Ok fields2 →
  (∀ values,
     Forall2 (λ f v, GetByField d1 f = Ok v) fields1 values →
     Forall (λ v, (Encode v).2 = None) values →
     (generateKey Encode s d1).1 =
       (digest (hash s)
               (written (hash s) ++ mjoin ((λ v, (Encode v).1) <$> values))
        mod 2 ^ 64, None))
  ∧ (GetByField d1 <$> fields1 = GetByField d2 <$> fields2 →
     generateKey Encode s d1 = generateKey Encode s d2).
Proof.
  intros HF1 HF2. split.
  - intros values Hget Henc. unfold generateKey.
    by rewrite HF1, (encodeFields_ok _ _ _ _ Hget Henc).
  - intros Hvs. unfold generateKey.
    by rewrite HF1, HF2, (encodeFields_values d1 d2 _ _ _ Hvs).
Qed.

(** *** Field order *)

Lemma assoc_list_to_map field (fs : list (string * Value)) :
  assoc field fs = (list_to_map fs : gmap string Value) !! field.
Proof.
  induction fs as [|[f v] fs IH]; cbn; [done|].
  destruct (decide (f = field)) as [->|Hne].
  - by rewrite lookup_insert_eq.
  - by rewrite lookup_insert_ne.
Qed.

Lemma assoc_Permutation field (fs1 fs2 : list (string * Value)) :
  NoDup fs1.*1 → fs1 ≡ₚ fs2 → assoc field fs1 = assoc field fs2.
Proof.
  intros Hnd Hperm. rewrite !assoc_list_to_map.
  by rewrite (list_to_map_proper (M:=gmap string) fs1 fs2 Hnd Hperm).
Qed.

Lemma Fields_Permutation (fs1 fs2 : list (string * Value)) :
  fs1 ≡ₚ fs2 → Fields (FieldBuffer fs1) = Fields (FieldBuffer fs2).
Proof.
  intros Hperm. unfold Fields. cbn. f_equal.
  apply (Sorted_unique String.le); [apply Sorted_merge_sort, _..|].
  rewrite !merge_sort_Permutation. by rewrite Hperm.
Qed.

(** C4.  Two in-memory documents with the same (field, value) pairs, the
    fields being unique, get the same result from [generateKey] whatever the
    order in which the fields were inserted. *)
Theorem generateKey_field_order s (fs1 fs2 : list (string * Value)) :
  NoDup fs1.*1 →
  fs1 ≡ₚ fs2 →
  generateKey Encode s (FieldBuffer fs1) = generateKey Encode s (FieldBuffer fs2).
Proof.
  intros Hnd Hperm. unfold generateKey.
  rewrite (Fields_Permutation _ _ Hperm).
  destruct (Fields (FieldBuffer fs2)) as [fields|e]; [|done].
  rewrite (encodeFields_values (FieldBuffer fs1) (FieldBuffer fs2) _ fields fields);
    [done|].
  apply list_fmap_ext. intros i f _. cbn.
  by rewrite (assoc_Permutation f fs1 fs2 Hnd Hperm).
Qed.

End planner_facts.

(** ** The example query *)

Section genji_facts.
Import document genji.

Local Open Scope string_scope.

(** A pull that returns agrees with the stream of the operator: the
    document it gives is the first of the stream and the operator it leaves
    yields the rest; the end and the error are those of the stream. *)
Lemma next_sound (fuel : nat) (op : Operator) (r : Pulled) :
  next fuel op = Some r →
  match r with
  | Next d op' => ∃ ds err, stream op = (d :: ds, err) ∧ stream op' = (ds, err)
  | EndOfStream => stream op = ([], None)
  | Failed e => stream op = ([], Some e)
  end.
Proof.
  revert op r. induction fuel as [|fuel IH]; intros op r; [done|].
  destruct op as [cursor|pred child|items child]; cbn [next].
  - destruct cursor as [|[k d] cursor]; intros [= <-]; cbn; eauto.
  - destruct (next fuel child) as [[d child'| |e]|] eqn:Hchild; [|..|done].
    + apply IH in Hchild as (ds & err & Hs & Hs').
      cbn [stream]. rewrite Hs. cbn [filterStream].
      destruct (pred d) as [v|e]; [|by intros [= <-]].
      destruct (isTrue v).
      * intros [= <-]. cbn [stream]. rewrite Hs'.
        destruct (filterStream pred ds err) as [out err']. eauto.
      * intros Hrest. apply IH in Hrest. cbn [stream] in Hrest.
        by rewrite Hs' in Hrest.
    + apply IH in Hchild. intros [= <-]. cbn [stream]. by rewrite Hchild.
    + apply IH in Hchild. intros [= <-]. cbn [stream]. by rewrite Hchild.
  - destruct (next fuel child) as [[d child'| |e]|] eqn:Hchild; [|..|done].
    + apply IH in Hchild as (ds & err & Hs & Hs').
      cbn [stream]. rewrite Hs. cbn [projectStream].
      destruct (project items d) as [d'|e]; [|by intros [= <-]].
      intros [= <-]. cbn [stream]. rewrite Hs'.
      destruct (projectStream items ds err) as [out err']. eauto.
    + apply IH in Hchild. intros [= <-]. cbn [stream]. by rewrite Hchild.
    + apply IH in Hchild. intros [= <-]. cbn [stream]. by rewrite Hchild.
Qed.

(** A pull that gives a document leaves the same operators over a shorter
    cursor. *)
Lemma next_shrinks (fuel : nat) (op op' : Operator) (d : Row) :
  next fuel op = Some (Next d op') →
  depth op' = depth op ∧ (remaining op' < remaining op)%nat.
Proof.
  revert op op' d. induction fuel as [|fuel IH]; intros op op' d; [done|].
  destruct op as [cursor|pred child|items child]; cbn [next].
  - destruct cursor as [|[k d0] cursor]; [done|]. intros [= <- <-]. cbn. lia.
  - destruct (next fuel child) as [[d0 child'| |e]|] eqn:Hchild; try done.
    apply IH in Hchild as [Hd Hr].
    destruct (pred d0) as [v|e]; [|done]. destruct (isTrue v).
    + intros [= <- <-]. cbn. lia.
    + intros Hrest. apply IH in Hrest as [Hd' Hr']. cbn in *. lia.
  - destruct (next fuel child) as [[d0 child'| |e]|] eqn:Hchild; try done.
    apply IH in Hchild as [Hd Hr].
    destruct (project items d0) as [d'|e]; [|done].
    intros [= <- <-]. cbn. lia.
Qed.

(** A pull returns when its fuel exceeds the operators above the scan plus
    the entries the scan has left. *)
Lemma next_returns (fuel : nat) (op : Operator) :
  (depth op + remaining op < fuel)%nat → is_Some (next fuel op).
Proof.
  revert op. induction fuel as [|fuel IH]; intros op Hfuel; [lia|].
  destruct op as [cursor|pred child|items child]; cbn [next].
  - by destruct cursor as [|[k d] cursor].
  - cbn in Hfuel. destruct (IH child) as [r Hchild]; [lia|]. rewrite Hchild.
    destruct r as [d child'| |e]; [|done..].
    apply next_shrinks in Hchild as [Hd Hr].
    destruct (pred d) as [v|e]; [|done]. destruct (isTrue v); [done|].
    apply IH. cbn. lia.
  - cbn in Hfuel. destruct (IH child) as [r Hchild]; [lia|]. rewrite Hchild.
    destruct r as [d child'| |e]; [|done..].
    by destruct (project items d).
Qed.

(** The Executor returns on every plan, given the fuel, and surfaces the
    stream of its root operator. *)
Lemma execute_stream (fuel : nat) (op : Operator) :
  (depth op + remaining op < fuel)%nat → execute fuel op = Some (stream op).
Proof.
  revert op. induction fuel as [|fuel IH]; intros op Hfuel; [lia|].
  cbn [execute]. destruct (next_returns (S fuel) op Hfuel) as [r Hnext].
  rewrite Hnext. pose proof (next_sound _ _ _ Hnext) as Hsound.
  destruct r as [d op'| |e]; [|by rewrite Hsound..].
  destruct Hsound as (ds & err & Hs & Hs').
  apply next_shrinks in Hnext as [Hd Hr].
  rewrite IH by lia. by rewrite Hs, Hs'.
Qed.

(** The wildcard projection passes every document on as it is. *)
Lemma projectStream_Wildcard (ds : list Row) (err : option error) :
  projectStream [Wildcard] ds err = (ds, err).
Proof.
  induction ds as [|d ds IH]; cbn; [done|]. by rewrite IH, app_nil_r.
Qed.

(** On documents on which the predicate has a value, a filter keeps the
    documents on which the value is the boolean true. *)
Lemma filterStream_filter (pred : Expr) (ds : list Row) (err : option error) :
  Forall (λ d, ∃ v, pred d = Ok v) ds →
  filterStream pred ds err
  = (filter (λ d, satisfies pred d) ds, err).
Proof.
  induction 1 as [|d ds [v Hv] _ IH]; cbn [filterStream]; [done|].
  rewrite filter_cons, IH, Hv.
  assert (satisfies pred d = isTrue v) as -> by (unfold satisfies; by rewrite Hv).
  by destruct (isTrue v).
Qed.

(** C8.  Over a table [user] that holds exactly the three rows of the
    example, stored in whatever key order, the query that filters on
    [Name = "bar"] and projects all the fields (with the wildcard, with no
    projection list, or with the three fields by name) yields the one
    document
    [{ID: 1, Name: "bar", Age: 100}]; the Executor returns, and the stream
    ends without an error. *)
Theorem example_query_result (db : gmap string Table) (t : Table)
    (pred : Expr) (fields : list Projected) (fuel : nat) :
  db !! "user" = Some t →
  (store t).*2 ≡ₚ exampleRows →
  fieldEqualsText pred "Name" "bar" →
  allFields fields →
  (5 < fuel)%nat →
  Query fuel db (exampleQuery fields pred) = Some ([user 1 "bar" 100], None).
Proof.
  intros Hdb Hrows Hpred Hfields Hfuel.
  assert (length (store t) = 3%nat) as Hlen.
  { by rewrite <-(length_fmap snd), Hrows. }
  assert (filterStream pred (store t).*2 None = ([user 1 "bar" 100], None)) as HF.
  { rewrite filterStream_filter.
    - f_equal. apply Permutation_singleton_r. rewrite Hrows.
      unfold exampleRows. rewrite !filter_cons, filter_nil. unfold satisfies.
      rewrite (Hpred (user 10 "foo" 15) "foo" eq_refl),
              (Hpred (user 1 "bar" 100) "bar" eq_refl),
              (Hpred (user 2 "baz" 0) "baz" eq_refl).
      done.
    - rewrite Hrows. unfold exampleRows. repeat constructor.
      + exists (BoolValue (bool_decide ("foo" = "bar"))). by apply Hpred.
      + exists (BoolValue (bool_decide ("bar" = "bar"))). by apply Hpred.
      + exists (BoolValue (bool_decide ("baz" = "bar"))). by apply Hpred. }
  unfold Query, plan, exampleQuery. cbn [selTable selWhere selFields].
  rewrite Hdb.
  destruct Hfields as [-> | [-> | (id & name & age & -> & Hid & Hname & Hage)]].
  - rewrite execute_stream by (cbn; lia). cbn [stream].
    by rewrite HF, projectStream_Wildcard.
  - rewrite execute_stream by (cbn; lia). cbn [stream]. by rewrite HF.
  - rewrite execute_stream by (cbn; lia). cbn [stream]. rewrite HF.
    cbn [projectStream project].
    by rewrite (Hid (user 1 "bar" 100) _ eq_refl),
               (Hname (user 1 "bar" 100) _ eq_refl),
               (Hage (user 1 "bar" 100) _ eq_refl).
Qed.

End genji_facts.

(** ** The command line *)

Section cli_facts.
Import cli.

Local Open Scope string_scope.

Lemma substring_all (s : string) : String.substring 0 (String.length s) s = s.
Proof. induction s as [|c s IH]; cbn; [done|]. by rewrite IH. Qed.

Lemma substring_app_r (p s : string) :
  String.substring (String.length p) (String.length s) (p +:+ s) = s.
Proof. induction p as [|c p IH]; cbn; [apply substring_all|done]. Qed.

Lemma string_length_app (p s : string) :
  String.length (p +:+ s) = (String.length p + String.length s)%nat.
Proof.
  induction p as [|c p IH]; [done|].
  change (String c p +:+ s) with (String c (p +:+ s)). cbn. by rewrite IH.
Qed.

Lemma substring_split (s : string) (n : nat) :
  (n ≤ String.length s)%nat →
  s = String.substring 0 n s +:+ String.substring n (String.length s - n) s.
Proof.
  revert n. induction s as [|c s IH]; intros [|n] Hn; cbn in Hn.
  - done.
  - lia.
  - cbn. by rewrite substring_all.
  - cbn [String.substring String.length Nat.sub].
    change (String c ?a +:+ ?b) with (String c (a +:+ b)).
    f_equal. apply IH. lia.
Qed.

(** [HasSuffix s suffix] holds exactly when [s] ends in [suffix]. *)
Lemma HasSuffix_spec (s suffix : string) :
  HasSuffix s suffix = true ↔ ∃ p, s = p +:+ suffix.
Proof.
  unfold HasSuffix. rewrite andb_true_iff, !bool_decide_eq_true. split.
  - intros [Hlen Hsub].
    exists (String.substring 0 (String.length s - String.length suffix) s).
    etrans; [apply (substring_split s (String.length s - String.length suffix)); lia|].
    f_equal. rewrite <-Hsub at 3. f_equal. lia.
  - intros [p ->]. rewrite string_length_app. split; [lia|].
    replace (String.length p + String.length suffix - String.length suffix)%nat
      with (String.length p) by lia.
    apply substring_app_r.
Qed.

(** C9.  The engine chosen by the root action: memory with no flag and no
    path; bolt with a path and no [--badger]; badger with [--badger] and a
    path; exit code 2 with both flags, and with a flag and no path.  The
    five cases cover every input. *)
Theorem rootAction_engine (useBolt useBadger : bool) (args : list string) :
  let dbpath := First args in
  (useBolt = false → useBadger = false → dbpath = "" →
     rootAction useBolt useBadger args =
       shellRun {| Engine := "memory"; DBPath := "" |})
  ∧ (useBadger = false → dbpath ≠ "" →
     rootAction useBolt useBadger args =
       shellRun {| Engine := "bolt"; DBPath := dbpath |})
  ∧ (useBolt = false → useBadger = true → dbpath ≠ "" →
     rootAction useBolt useBadger args =
       shellRun {| Engine := "badger"; DBPath := dbpath |})
  ∧ (useBolt = true → useBadger = true →
     ∃ message, rootAction useBolt useBadger args = NewExitError message 2)
  ∧ (useBolt = true ∨ useBadger = true → dbpath = "" →
     ∃ message, rootAction useBolt useBadger args = NewExitError message 2).
Proof.
  intros dbpath. unfold rootAction. fold dbpath.
  repeat apply conj.
  - intros -> -> ->. done.
  - intros -> Hpath. rewrite (bool_decide_eq_false_2 _ Hpath).
    by destruct useBolt.
  - intros -> -> Hpath. by rewrite (bool_decide_eq_false_2 _ Hpath).
  - intros -> ->. eauto.
  - intros Hflag Hpath. rewrite (bool_decide_eq_true_2 _ Hpath).
    destruct Hflag as [-> | ->]; [destruct useBadger|destruct useBolt]; cbn; eauto.
Qed.

(** C10.  The restore action checks, in this order, the engine, the number
    of arguments, the suffix of the first argument and the suffix of the
    second; the first check that fails gives the error, and no file has
    been opened.  When all four hold, the action opens the dump file. *)
Theorem restoreAction_checks {File : Type} (Open : string → result File)
    (runRestoreCommand : File → string → string → string → option error)
    (engine table : string) (args : list string) :
  let r := restoreAction Open runRestoreCommand engine table args in
  (engine ≠ "bolt" → engine ≠ "badger" →
     r = ([], Some (UnsupportedEngine engine)))
  ∧ (engine = "bolt" ∨ engine = "badger" →
     (length args ≠ 2%nat → r = ([], Some (BadArguments restoreUsageText)))
     ∧ (∀ a0 a1, args = [a0; a1] →
          (¬ (∃ p, a0 = p +:+ ".sql") → r = ([], Some NotSQLFile))
          ∧ ((∃ p, a0 = p +:+ ".sql") → ¬ (∃ p, a1 = p +:+ ".db") →
             r = ([], Some NotDBFile))
          ∧ ((∃ p, a0 = p +:+ ".sql") → (∃ p, a1 = p +:+ ".db") →
             r = match Open a0 with
                 | Err e => ([a0], Some (Other e))
                 | Ok file =>
                     ([a0], Other <$> runRestoreCommand file engine table a1)
                 end))).
Proof.
  intros r. unfold r, restoreAction. split.
  - intros Hbolt Hbadger.
    by rewrite (bool_decide_eq_false_2 _ Hbolt), (bool_decide_eq_false_2 _ Hbadger).
  - intros Hengine.
    assert (bool_decide (engine = "bolt") || bool_decide (engine = "badger") = true)
      as -> by (destruct Hengine as [-> | ->]; done).
    cbn [negb]. split.
    { intros Hlen. by rewrite (bool_decide_eq_false_2 _ Hlen). }
    intros a0 a1 ->. cbn [length bool_decide negb].
    rewrite (bool_decide_eq_true_2 (2 = 2)%nat eq_refl). cbn [negb].
    change ([a0; a1] !!! 0%nat) with a0. change ([a0; a1] !!! 1%nat) with a1.
    split; [|split].
    + intros Hsql. rewrite <-HasSuffix_spec in Hsql.
      by apply not_true_is_false in Hsql as ->.
    + intros Hsql Hdb. rewrite <-HasSuffix_spec in Hsql, Hdb.
      rewrite Hsql. by apply not_true_is_false in Hdb as ->.
    + intros Hsql Hdb. rewrite <-HasSuffix_spec in Hsql, Hdb.
      by rewrite Hsql, Hdb.
Qed.

End cli_facts.

(** * The properties on concrete inputs *)

Section instances.
Import document hash planner sample.

Local Open Scope string_scope.

(** C1 on the documents of the distinct scenario: a duplicate insert, two
    different documents, and a longer stream. *)
Lemma Filter_passes_first_seen_witness :
  pass Encode (newDocumentHashSet maphash_sum None) [bar; bar_reordered] = [bar]
  ∧ pass Encode (newDocumentHashSet maphash_sum None) [bar; baz] = [bar; baz]
  ∧ pass Encode (newDocumentHashSet maphash_sum None)
         [bar; baz; bar_reordered; corrupt; baz] = [bar; baz].
Proof.
  destruct (Filter_passes_first_seen maphash_sum Encode None
              [bar; baz; bar_reordered; corrupt; baz] I) as (Hall & Hsame & Hdiff).
  split; [|split].
  - eapply Hsame; vm_compute; reflexivity.
  - eapply Hdiff; [vm_compute; reflexivity..|]. vm_compute. discriminate.
  - rewrite Hall. vm_compute. reflexivity.
Defined.

(** C2, as stated, fails on [{a: 1}] and [{b: 1}]: the same value under
    different field names.  The bytes fed to the hash are the same, so no
    collision is involved, and the two keys are equal, with every encoder
    and every hash. *)
Lemma renamed_field_same_key :
  Fields a1 = Ok ["a"] ∧ Fields b1 = Ok ["b"]
  ∧ GetByField a1 "a" = Ok (IntegerValue 1)
  ∧ GetByField b1 "b" = Ok (IntegerValue 1)
  ∧ keyBytes Encode a1 = keyBytes Encode b1
  ∧ keyOf Encode New64a a1 = Some 17734429919684228652
  ∧ keyOf Encode New64a b1 = Some 17734429919684228652
  ∧ (∀ Enc s, generateKey Enc s a1 = generateKey Enc s b1).
Proof. repeat split; vm_compute; reflexivity. Qed.

(** The amended C2 on the same two documents. *)
Lemma generateKey_hashes_values_only_witness :
  generateKey Encode (newDocumentHashSet maphash_sum None) a1
  = generateKey Encode (newDocumentHashSet maphash_sum None) b1.
Proof.
  apply (generateKey_hashes_values_only Encode
           (newDocumentHashSet maphash_sum None) a1 b1 ["a"] ["b"]);
    reflexivity.
Defined.

(** C3 with the byte-sum hash: [{x: 1, y: 2}] and [{x: 2, y: 1}] feed
    different bytes and get the same key; the second is filtered out. *)
Lemma collision_is_filtered_out_witness :
  keyBytes Encode x1y2 ≠ keyBytes Encode x2y1
  ∧ (Filter Encode
       (feed Encode
          (Filter Encode
             (feed Encode (newDocumentHashSet maphash_sum (Some NewByteSum)) [bar])
             x1y2).2
          [baz])
       x2y1).1 = (false, None).
Proof.
  split; [vm_compute; discriminate|].
  eapply (collision_is_filtered_out maphash_sum Encode (Some NewByteSum)
            [bar] [baz] x1y2 x2y1);
    vm_compute; reflexivity.
Defined.

(** C4 on [bar] and [bar_reordered]. *)
Lemma generateKey_field_order_witness :
  generateKey Encode (newDocumentHashSet maphash_sum None) bar
  = generateKey Encode (newDocumentHashSet maphash_sum None) bar_reordered.
Proof.
  apply (generateKey_field_order Encode).
  - apply (bool_decide_unpack _). vm_compute. exact I.
  - apply perm_swap.
Defined.

(** C5: the key of [baz] after an unreadable document and [bar], and with
    nothing hashed before. *)
Lemma generateKey_resets_accumulator_witness :
  (generateKey Encode
     (hashAll Encode (newDocumentHashSet maphash_sum None) [corrupt; bar]) baz).1
  = (generateKey Encode
       (hashAll Encode (newDocumentHashSet maphash_sum None) []) baz).1.
Proof.
  apply (proj2 (generateKey_resets_accumulator maphash_sum Encode)
           None [corrupt; bar] [] baz I).
Defined.

(** C6 on a document whose second field cannot be found, in a set that
    holds the key of [bar]. *)
Lemma Filter_returns_key_error_witness :
  (Filter Encode (feed Encode (newDocumentHashSet maphash_sum None) [bar]) dangling).1
    = (false, Some ErrFieldNotFound)
  ∧ set (Filter Encode (feed Encode (newDocumentHashSet maphash_sum None) [bar]) dangling).2
    = set (feed Encode (newDocumentHashSet maphash_sum None) [bar]).
Proof.
  apply (proj1 (Filter_returns_key_error Encode
                  (feed Encode (newDocumentHashSet maphash_sum None) [bar])
                  dangling ErrFieldNotFound)).
  vm_compute. reflexivity.
Defined.

(** C7, as stated, fails on a document that cannot be read: the first
    [Filter] call of a new set answers [false], with the error, for every
    default hash and every encoder. *)
Lemma first_Filter_on_unreadable_document :
  (Filter Encode (newDocumentHashSet maphash_sum None) corrupt).1
    = (false, Some ErrCorrupt)
  ∧ (∀ mh Enc, (Filter Enc (newDocumentHashSet mh None) corrupt).1
               = (false, Some ErrCorrupt)).
Proof. split; [vm_compute; reflexivity|]. intros mh Enc. reflexivity. Qed.

(** The amended C7 on [bar]. *)
Lemma newDocumentHashSet_nil_default_witness :
  (Filter Encode (newDocumentHashSet maphash_sum None) bar).1 = (true, None).
Proof.
  apply (proj2 (proj2 (proj2 (newDocumentHashSet_nil_default maphash_sum Encode)))).
  vm_compute. reflexivity.
Defined.

End instances.

Section more_instances.
Import document genji cli.

Local Open Scope string_scope.

(** C8 on the table that the statements of [Example] build: the table
    declares no primary key, so the three rows get the surrogate keys 1, 2
    and 3 and are stored in the order of their insertion.  The predicate
    is null on a document without a [Name]. *)
Lemma example_query_result_witness :
  let encodeKey := λ v, (sample.Encode v).1 in
  let t := insertAll encodeKey emptyTable exampleRows in
  let pred : Expr :=
    λ d, match assoc "Name" d with
         | Some (TextValue s) => Ok (BoolValue (bool_decide (s = "bar")))
         | Some _ => Ok (BoolValue false)
         | None => Ok NullValue
         end in
  (store t).*2 = exampleRows
  ∧ Query 6 (<["user" := t]> ∅) (exampleQuery [Wildcard] pred)
    = Some ([user 1 "bar" 100], None).
Proof.
  intros encodeKey t pred. split; [vm_compute; reflexivity|].
  apply (example_query_result (<["user" := t]> ∅) t pred [Wildcard] 6).
  - apply lookup_insert_eq.
  - vm_compute. reflexivity.
  - intros d s Hname. unfold pred. by rewrite Hname.
  - by left.
  - lia.
Defined.

(** C9: [genji --badger my.db], and [genji --bolt] with no path. *)
Lemma rootAction_engine_witness :
  rootAction false true ["my.db"] = shellRun {| Engine := "badger"; DBPath := "my.db" |}
  ∧ ∃ message, rootAction true false [] = NewExitError message 2.
Proof.
  split.
  - apply (rootAction_engine false true ["my.db"]); [reflexivity..|discriminate].
  - apply (rootAction_engine true false []); [by left|reflexivity].
Defined.

(** C10: [genji restore dump.sql my.txt] with the default engine is turned
    down for its second argument, and no file has been opened. *)
Lemma restoreAction_checks_witness :
  restoreAction (λ _, Ok ()) (λ _ _ _ _, None) "bolt" "" ["dump.sql"; "my.txt"]
  = ([], Some NotDBFile).
Proof.
  apply (restoreAction_checks (λ _, Ok ()) (λ _ _ _ _, None) "bolt" ""
           ["dump.sql"; "my.txt"]) with (a0 := "dump.sql") (a1 := "my.txt").
  - by left.
  - reflexivity.
  - by exists "dump".
  - rewrite <-HasSuffix_spec. vm_compute. discriminate.
Defined.

End more_instances.

(** * Further properties of the hash set *)

Section planner_invariants.
Import document hash planner.

Variable maphash_sum : list byte → Z.
Variable Encode : Value → list byte * option error.

Implicit Types (s : documentHashSet) (d : Document) (h : Hash64).

(** [Filter] on a clean set, by the key of the document. *)
Lemma Filter_clean_key s d :
  written (hash s) = [] →
  Filter Encode s d =
    match keyOf Encode (hash s) d with
    | None => ((false, (keyResult Encode (hash s) d).2), s)
    | Some k =>
        if decide (k ∈ set s) then ((false, None), s)
        else ((true, None), {| hash := hash s; set := {[k]} ∪ set s |})
    end.
Proof.
  intros Hw. rewrite (Filter_clean Encode _ _ Hw). unfold keyOf.
  by destruct (keyResult Encode (hash s) d) as [k [e|]].
Qed.

Lemma Filter_hash_clean s d :
  written (hash s) = [] → hash (Filter Encode s d).2 = hash s.
Proof. intros Hw. rewrite Filter_hash. by apply Reset_clean. Qed.

(** The keys recorded by a run. *)
Lemma feed_keys s ds :
  written (hash s) = [] →
  set (feed Encode s ds) = set s ∪ list_to_set (omap (keyOf Encode (hash s)) ds).
Proof.
  revert s. induction ds as [|d ds IH]; intros s Hw; cbn [feed omap].
  { cbn. set_solver. }
  pose proof (Filter_hash_clean s d Hw) as Hh.
  rewrite IH by (by rewrite Hh). rewrite Hh.
  rewrite (Filter_clean_key s d Hw).
  destruct (keyOf Encode (hash s) d) as [k|] eqn:Hk; cbn; rewrite Hk; [|done].
  destruct (decide (k ∈ set s)); cbn; set_solver.
Qed.

(** The survivors of a run and the keys it adds. *)
Lemma pass_size s ds :
  written (hash s) = [] →
  size (set (feed Encode s ds)) = (size (set s) + length (pass Encode s ds))%nat.
Proof.
  revert s. induction ds as [|d ds IH]; intros s Hw; cbn [feed pass].
  { cbn. lia. }
  pose proof (Filter_hash_clean s d Hw) as Hh.
  rewrite IH by (by rewrite Hh). revert Hh.
  rewrite (Filter_clean_key s d Hw).
  destruct (keyOf Encode (hash s) d) as [k|]; cbn; [|done].
  destruct (decide (k ∈ set s)); cbn; [done|]. intros _.
  rewrite size_union by set_solver. rewrite size_singleton. lia.
Qed.

Lemma pass_length s ds : (length (pass Encode s ds) ≤ length ds)%nat.
Proof.
  revert s. induction ds as [|d ds IH]; intros s; cbn [pass length]; [done|].
  destruct (Filter Encode s d) as [[[] ?] s']; cbn; specialize (IH s'); lia.
Qed.

(** The keys of the survivors: each survivor has one, they are pairwise
    different, none was in the set before, and together with the set they
    are what the set holds afterwards. *)
Lemma pass_keys s ds :
  written (hash s) = [] →
  Forall (λ d, is_Some (keyOf Encode (hash s) d)) (pass Encode s ds)
  ∧ NoDup (omap (keyOf Encode (hash s)) (pass Encode s ds))
  ∧ (∀ k, k ∈ omap (keyOf Encode (hash s)) (pass Encode s ds) → k ∉ set s)
  ∧ set s ∪ list_to_set (omap (keyOf Encode (hash s)) (pass Encode s ds))
    = set (feed Encode s ds).
Proof.
  revert s. induction ds as [|d ds IH]; intros s Hw; cbn [feed pass].
  { cbn. split; [done|]. split; [constructor|]. split; [by intros k ?%elem_of_nil|].
    set_solver. }
  pose proof (Filter_hash_clean s d Hw) as Hh.
  destruct (IH (Filter Encode s d).2) as (Hsome & Hnd & Hnew & Hset);
    [by rewrite Hh|].
  rewrite Hh in Hsome, Hnd, Hnew, Hset. revert Hsome Hnd Hnew Hset. clear Hh.
  rewrite (Filter_clean_key s d Hw).
  destruct (keyOf Encode (hash s) d) as [k|] eqn:Hk; cbn; [|done].
  destruct (decide (k ∈ set s)) as [Hin|Hnin]; cbn; [done|].
  intros Hsome Hnd Hnew Hset. rewrite Hk. cbn.
  split; [by constructor|]. split; [|split].
  - constructor; [|done]. intros Hin. apply Hnew in Hin. set_solver.
  - intros k' [->|Hin]%elem_of_cons; [done|]. apply Hnew in Hin. set_solver.
  - rewrite <-Hset. set_solver.
Qed.

(** On a set that holds the key of every document of [ds] that has one,
    [Filter] answers [false] throughout and the set stays as it is. *)
Lemma pass_seen s ds :
  written (hash s) = [] →
  (∀ d k, d ∈ ds → keyOf Encode (hash s) d = Some k → k ∈ set s) →
  pass Encode s ds = [] ∧ feed Encode s ds = s.
Proof.
  intros Hw. induction ds as [|d ds IH]; intros Hseen; cbn [feed pass]; [done|].
  rewrite (Filter_clean_key s d Hw).
  destruct (keyOf Encode (hash s) d) as [k|] eqn:Hk; cbn.
  - rewrite decide_True by (apply (Hseen d); [by left|done]). cbn.
    apply IH. intros d' k' Hd'. apply Hseen. by right.
  - apply IH. intros d' k' Hd'. apply Hseen. by right.
Qed.

(** Documents without a key leave no trace in a clean set. *)
Lemma pass_readable s ds :
  written (hash s) = [] →
  pass Encode s ds
    = pass Encode s (filter (λ d, is_Some (keyOf Encode (hash s) d)) ds)
  ∧ feed Encode s ds
    = feed Encode s (filter (λ d, is_Some (keyOf Encode (hash s) d)) ds).
Proof.
  revert s. induction ds as [|d ds IH]; intros s Hw; [done|].
  rewrite filter_cons. pose proof (Filter_hash_clean s d Hw) as Hh.
  destruct (decide (is_Some (keyOf Encode (hash s) d))) as [Hsome|Hnone].
  - cbn [feed pass].
    destruct (Filter Encode s d) as [[ok e] s'] eqn:HF. cbn in Hh |- *.
    destruct (IH s') as [Hp Hf]; [by rewrite Hh|]. rewrite Hh in Hp, Hf.
    rewrite <-Hp, <-Hf. by destruct ok.
  - cbn [feed pass]. rewrite (Filter_clean_key s d Hw).
    destruct (keyOf Encode (hash s) d) as [k|]; [by destruct Hnone|].
    cbn. by apply IH.
Qed.

(** What [generateKey] hashes when the accumulator holds pending bytes. *)
Lemma generateKey_pending s d k :
  keyOf Encode (hash s) d = Some k →
  (generateKey Encode s d).1
  = (digest (hash s) (written (hash s) ++ keyBytes Encode d) mod 2 ^ 64, None).
Proof.
  unfold keyOf, keyResult, keyBytes, generateKey. cbn.
  destruct (Fields d) as [fields|e]; cbn; [|done].
  set (h0 := {| digest := λ _, 0; written := [] |}).
  destruct (encodeFields_written Encode d (hash s) h0 fields eq_refl) as [Hw He].
  destruct (encodeFields_written Encode d (Reset (hash s)) h0 fields eq_refl)
    as [_ He'].
  pose proof (encodeFields_digest Encode d (hash s) fields) as Hd.
  rewrite <-He' in He. clear He'.
  destruct (encodeFields Encode d (Reset (hash s)) fields) as [h1 [e1|]];
    cbn in *; [done|]. intros _.
  destruct (encodeFields Encode d (hash s) fields) as [h2 [e2|]];
    cbn in *; [done|].
  unfold Sum64. by rewrite Hd, Hw.
Qed.

(** X1.  After a stream has been fed to a filter made from an unused hash,
    the set holds exactly the keys of the documents of the stream whose key
    could be computed: every such key is recorded, and nothing else is. *)
Theorem feed_records_the_keys hash0 ds :
  unused hash0 →
  let s0 := newDocumentHashSet maphash_sum hash0 in
  set (feed Encode s0 ds) = list_to_set (omap (keyOf Encode (hash s0)) ds).
Proof.
  intros Hfresh s0.
  rewrite feed_keys by (by apply newDocumentHashSet_clean).
  unfold s0 at 1. cbn. set_solver.
Qed.

(** X2.  The number of documents a filter has let through is the number of
    keys it holds, and it holds at most one key per document fed. *)
Theorem survivors_count_the_keys hash0 ds :
  unused hash0 →
  let s0 := newDocumentHashSet maphash_sum hash0 in
  length (pass Encode s0 ds) = size (set (feed Encode s0 ds))
  ∧ (size (set (feed Encode s0 ds)) ≤ length ds)%nat.
Proof.
  intros Hfresh s0.
  pose proof (pass_size s0 ds (newDocumentHashSet_clean maphash_sum _ Hfresh)) as Hsize.
  pose proof (pass_length s0 ds) as Hlen.
  unfold s0 in Hsize at 2. cbn in Hsize. rewrite size_empty in Hsize. lia.
Qed.

(** X3.  The documents let through have keys, no two of them have the same
    key, and every key that occurs in the stream is the key of one of
    them. *)
Theorem survivors_have_distinct_keys hash0 ds :
  unused hash0 →
  let s0 := newDocumentHashSet maphash_sum hash0 in
  let key := keyOf Encode (hash s0) in
  Forall (λ d, is_Some (key d)) (pass Encode s0 ds)
  ∧ NoDup (omap key (pass Encode s0 ds))
  ∧ list_to_set (omap key (pass Encode s0 ds)) =@{gset Z} list_to_set (omap key ds).
Proof.
  intros Hfresh s0 key.
  pose proof (newDocumentHashSet_clean maphash_sum _ Hfresh) as Hw.
  destruct (pass_keys s0 ds Hw) as (Hsome & Hnd & _ & Hset).
  split; [done|]. split; [done|].
  rewrite feed_keys in Hset by done. unfold s0 in Hset at 1 3. cbn in Hset.
  fold s0 in Hset. fold key in Hset. set_solver.
Qed.

(** X4.  Documents that have been fed to the filter do not pass when they
    are fed again, in any order and any number of times, and feeding them
    again leaves the filter as it is. *)
Theorem refeed_passes_nothing hash0 (ds ds' : list Document) :
  unused hash0 →
  ds' ⊆ ds →
  let s0 := newDocumentHashSet maphash_sum hash0 in
  pass Encode (feed Encode s0 ds) ds' = []
  ∧ feed Encode (feed Encode s0 ds) ds' = feed Encode s0 ds.
Proof.
  intros Hfresh Hsub s0.
  pose proof (newDocumentHashSet_clean maphash_sum _ Hfresh) as Hw.
  pose proof (feed_hash Encode s0 ds Hw) as Hh.
  apply pass_seen; [by rewrite Hh|]. rewrite Hh.
  intros d k Hd Hk. rewrite feed_keys by done.
  apply elem_of_union_r, elem_of_list_to_set, list_elem_of_omap.
  exists d. split; [by apply Hsub|done].
Qed.

(** X5.  Documents whose key cannot be computed leave no trace: the filter
    lets through the same documents, and ends in the same state, as if they
    had not been in the stream. *)
Theorem unreadable_documents_leave_no_trace hash0 ds :
  unused hash0 →
  let s0 := newDocumentHashSet maphash_sum hash0 in
  let readable d := is_Some (keyOf Encode (hash s0) d) in
  pass Encode s0 ds = pass Encode s0 (filter readable ds)
  ∧ feed Encode s0 ds = feed Encode s0 (filter readable ds).
Proof.
  intros Hfresh s0 readable.
  by apply pass_readable, newDocumentHashSet_clean.
Qed.

(** X6.  [newDocumentHashSet] does not reset the hash it is given.  When
    bytes [w] have been written to it, the first key is the digest of [w]
    followed by the bytes of the document, while later keys are digests of
    the bytes of the document alone: a document inserted twice passes twice,
    unless the two digests happen to agree. *)
Theorem used_hash_first_key h d k :
  keyOf Encode h d = Some k →
  let s0 := newDocumentHashSet maphash_sum (Some h) in
  let k0 := digest h (written h ++ keyBytes Encode d) mod 2 ^ 64 in
  (generateKey Encode s0 d).1 = (k0, None)
  ∧ (k0 ≠ k → pass Encode s0 [d; d] = [d; d])
  ∧ (k0 = k → pass Encode s0 [d; d] = [d]).
Proof.
  intros Hk s0 k0.
  pose proof (generateKey_pending s0 d k Hk) as Hfirst. fold k0 in Hfirst.
  split; [done|].
  assert (Filter Encode s0 d
          = ((true, None), {| hash := Reset h; set := {[k0]} |})) as HF.
  { unfold Filter. pose proof (generateKey_hash Encode s0 d) as Hh.
    pose proof (generateKey_set Encode s0 d) as Hs.
    destruct (generateKey Encode s0 d) as [[k' e] [h' S']]. cbn in *.
    injection Hfirst as -> ->. subst h' S'.
    rewrite decide_False by set_solver. do 2 f_equal. set_solver. }
  assert (keyOf Encode (Reset h) d = Some k) as Hk' by done.
  cbn [pass]. rewrite HF. rewrite Filter_clean_key by done. cbn [hash set].
  rewrite Hk'. split; intros Hkk.
  - rewrite decide_False by set_solver. done.
  - rewrite decide_True by set_solver. done.
Qed.

End planner_invariants.

(** * Further properties of the command line *)

Section cli_invariants.
Import cli.

Local Open Scope string_scope.

(** X7.  What the root action can do.  When it starts the shell, the path
    is the first argument, the engine is memory exactly when there is no
    path, badger exactly when [--badger] is set, and bolt otherwise.  When
    it fails, the exit code is 2 and one of the two misuses occurred: both
    flags, or a flag without a path. *)
Theorem rootAction_outcomes (useBolt useBadger : bool) (args : list string) :
  (∀ opts, rootAction useBolt useBadger args = shellRun opts →
     DBPath opts = First args
     ∧ (Engine opts = "memory" ↔ DBPath opts = "")
     ∧ (Engine opts = "badger" ↔ useBadger = true)
     ∧ (Engine opts = "bolt" ↔ useBadger = false ∧ DBPath opts ≠ ""))
  ∧ (∀ message exitCode,
       rootAction useBolt useBadger args = NewExitError message exitCode →
       exitCode = 2
       ∧ (useBolt = true ∧ useBadger = true
          ∨ (useBolt = true ∨ useBadger = true) ∧ First args = "")).
Proof.
  unfold rootAction. split.
  - intros opts.
    destruct useBolt, useBadger, (decide (First args = "")) as [Hp|Hp];
      rewrite ?(bool_decide_eq_true_2 _ Hp), ?(bool_decide_eq_false_2 _ Hp);
      cbn; intros [= <-]; cbn; rewrite ?Hp; naive_solver.
  - intros message exitCode.
    destruct useBolt, useBadger, (decide (First args = "")) as [Hp|Hp];
      rewrite ?(bool_decide_eq_true_2 _ Hp), ?(bool_decide_eq_false_2 _ Hp);
      cbn; intros [= <- <-]; naive_solver.
Qed.

(** X8.  What the restore action can have done when it returns.  The only
    file it ever opens is its first argument, and it opens it only after
    all four checks have passed.  It returns no error only when that file
    could be opened and [runRestoreCommand] succeeded on it, with the engine,
    the table and the second argument as given. *)
Theorem restoreAction_opens_only_the_dump {File : Type}
    (Open : string → result File)
    (runRestoreCommand : File → string → string → string → option error)
    (engine table : string) (args : list string) :
  let r := restoreAction Open runRestoreCommand engine table args in
  (r.1 = [] ∨ r.1 = [args !!! 0%nat])
  ∧ (r.1 = [args !!! 0%nat] →
     (engine = "bolt" ∨ engine = "badger")
     ∧ length args = 2%nat
     ∧ (∃ p, args !!! 0%nat = p +:+ ".sql")
     ∧ (∃ p, args !!! 1%nat = p +:+ ".db"))
  ∧ (r.2 = None →
     r.1 = [args !!! 0%nat]
     ∧ ∃ file, Open (args !!! 0%nat) = Ok file
               ∧ runRestoreCommand file engine table (args !!! 1%nat) = None).
Proof.
  intros r. unfold r, restoreAction.
  destruct (decide (engine = "bolt")) as [Hbolt|Hbolt];
    destruct (decide (engine = "badger")) as [Hbadger|Hbadger];
    rewrite ?(bool_decide_eq_true_2 _ Hbolt), ?(bool_decide_eq_false_2 _ Hbolt),
      ?(bool_decide_eq_true_2 _ Hbadger), ?(bool_decide_eq_false_2 _ Hbadger);
    cbn [orb negb];
    try (split; [by left|split; [done|done]]).
  all: destruct (decide (length args = 2%nat)) as [Hlen|Hlen];
    rewrite ?(bool_decide_eq_true_2 _ Hlen), ?(bool_decide_eq_false_2 _ Hlen);
    cbn [negb]; try (split; [by left|split; [done|done]]).
  all: destruct (HasSuffix (args !!! 0%nat) ".sql") eqn:Hsql;
    cbn [negb]; try (split; [by left|split; [done|done]]).
  all: destruct (HasSuffix (args !!! 1%nat) ".db") eqn:Hdb;
    cbn [negb]; try (split; [by left|split; [done|done]]).
  all: apply HasSuffix_spec in Hsql, Hdb.
  all: destruct (Open (args !!! 0%nat)) as [file|e]; cbn.
  all: split; [by right|]; split; [by auto|]; try done.
  all: intros Hrun; split; [done|]; exists file; split; [done|].
  all: by destruct (runRestoreCommand file engine table (args !!! 1%nat)).
Qed.

(** X9.  The version action never fails.  With build information, it
    prints the version of the first dependency whose path is genji's, with
    the version of the main module as the CLI version; dependencies before
    it and after it do not matter.  Without a genji dependency the genji
    version is printed empty. *)
Theorem versionAction_prints_first_genji_dep (main : BuildModule)
    (deps : list BuildModule) :
  (∀ info, (versionAction info).2 = None)
  ∧ (∀ before dep after,
       deps = (before ++ dep :: after)%list →
       Forall (λ m, Path m ≠ genjiModulePath) before →
       Path dep = genjiModulePath →
       (versionAction (Some {| Main := main; Deps := deps |})).1
       = "Genji " +:+ Version dep +:+ newline
         +:+ "Genji CLI " +:+ Version main +:+ newline)
  ∧ (Forall (λ m, Path m ≠ genjiModulePath) deps →
     (versionAction (Some {| Main := main; Deps := deps |})).1
     = "Genji " +:+ newline +:+ "Genji CLI " +:+ Version main +:+ newline).
Proof.
  split; [by intros [info|]|]. split.
  - intros before dep after -> Hbefore Hdep. cbn. do 2 f_equal.
    induction Hbefore as [|m before Hm _ IH]; cbn.
    + by rewrite bool_decide_eq_false_2 by (by intros ?).
    + by rewrite (bool_decide_eq_true_2 _ Hm).
  - intros Hnone. cbn.
    assert (genjiVersionOf deps = "") as ->; [|done].
    induction Hnone as [|m deps' Hm _ IH]; cbn; [done|].
    by rewrite (bool_decide_eq_true_2 _ Hm).
Qed.

End cli_invariants.

(** * The further properties on concrete inputs *)

Section planner_invariants_instances.
Import document hash planner sample.

Local Open Scope string_scope.

(** X1 on a stream of four documents, two of them with the key of [bar] and
    one that cannot be read: two keys are recorded. *)
Lemma feed_records_the_keys_witness :
  size (set (feed Encode (newDocumentHashSet maphash_sum None)
               [bar; corrupt; bar_reordered; baz])) = 2%nat.
Proof.
  rewrite (feed_records_the_keys maphash_sum Encode None
             [bar; corrupt; bar_reordered; baz] I).
  vm_compute. reflexivity.
Defined.

(** X2 on the same stream. *)
Lemma survivors_count_the_keys_witness :
  length (pass Encode (newDocumentHashSet maphash_sum None)
            [bar; corrupt; bar_reordered; baz])
  = size (set (feed Encode (newDocumentHashSet maphash_sum None)
                 [bar; corrupt; bar_reordered; baz])).
Proof.
  exact (proj1 (survivors_count_the_keys maphash_sum Encode None
                  [bar; corrupt; bar_reordered; baz] I)).
Defined.

(** X3 on the same stream, with FNV-1a as the hash. *)
Lemma survivors_have_distinct_keys_witness :
  NoDup (omap (keyOf Encode New64a)
           (pass Encode (newDocumentHashSet maphash_sum (Some New64a))
              [bar; corrupt; bar_reordered; baz])).
Proof.
  exact (proj1 (proj2 (survivors_have_distinct_keys maphash_sum Encode
                         (Some New64a) [bar; corrupt; bar_reordered; baz] eq_refl))).
Defined.

(** X4: [bar] and [baz] fed again after [bar; baz]. *)
Lemma refeed_passes_nothing_witness :
  pass Encode (feed Encode (newDocumentHashSet maphash_sum None) [bar; baz])
       [baz; bar; baz] = [].
Proof.
  apply (refeed_passes_nothing maphash_sum Encode None [bar; baz] [baz; bar; baz] I).
  intros d Hd. rewrite !elem_of_cons in Hd. rewrite !elem_of_cons.
  destruct Hd as [->|[->|[->|Hd]]]; auto.
Defined.

(** X5: two documents that cannot be hashed, among two copies of [bar]. *)
Lemma unreadable_documents_leave_no_trace_witness :
  pass Encode (newDocumentHashSet maphash_sum None) [corrupt; bar; dangling; bar]
  = pass Encode (newDocumentHashSet maphash_sum None) [bar; bar].
Proof.
  etrans.
  - exact (proj1 (unreadable_documents_leave_no_trace maphash_sum Encode None
                    [corrupt; bar; dangling; bar] I)).
  - vm_compute. reflexivity.
Defined.

(** X6: an FNV-1a hash to which one byte has been written lets [bar] pass
    twice. *)
Lemma used_hash_first_key_witness :
  pass Encode
       (newDocumentHashSet maphash_sum (Some {| digest := fnv1a; written := [x01] |}))
       [bar; bar]
  = [bar; bar].
Proof.
  edestruct (used_hash_first_key maphash_sum Encode
               {| digest := fnv1a; written := [x01] |} bar) as (_ & Hdup & _).
  - vm_compute. reflexivity.
  - apply Hdup. vm_compute. discriminate.
Defined.

End planner_invariants_instances.

Section cli_invariants_instances.
Import cli.

Local Open Scope string_scope.

(** X7: [genji --bolt my.db extra] starts the shell on [my.db] with bolt. *)
Lemma rootAction_outcomes_witness :
  let opts := {| Engine := "bolt"; DBPath := "my.db" |} in
  DBPath opts = First ["my.db"; "extra"]
  ∧ (Engine opts = "memory" ↔ DBPath opts = "")
  ∧ (Engine opts = "badger" ↔ false = true)
  ∧ (Engine opts = "bolt" ↔ false = false ∧ DBPath opts ≠ "").
Proof.
  apply (proj1 (rootAction_outcomes true false ["my.db"; "extra"])).
  reflexivity.
Defined.

(** X8: [genji restore -e badger dump.sql my.db] when the dump cannot be
    opened: the one path tried is the dump, and the checks had passed. *)
Lemma restoreAction_opens_only_the_dump_witness :
  ("badger" = "bolt" ∨ "badger" = "badger")
  ∧ length ["dump.sql"; "my.db"] = 2%nat
  ∧ (∃ p, ["dump.sql"; "my.db"] !!! 0%nat = p +:+ ".sql")
  ∧ (∃ p, ["dump.sql"; "my.db"] !!! 1%nat = p +:+ ".db").
Proof.
  apply (proj1 (proj2 (restoreAction_opens_only_the_dump
                         (File := unit) (λ _, Err "no such file")
                         (λ _ _ _ _, None) "badger" "" ["dump.sql"; "my.db"]))).
  reflexivity.
Defined.

(** X9: the first of two genji dependencies is the one printed. *)
Lemma versionAction_prints_first_genji_dep_witness :
  (versionAction
     (Some {| Main := {| Path := "github.com/genjidb/genji/cmd/genji";
                         Version := "v0.2.1" |};
              Deps := [ {| Path := "github.com/urfave/cli/v2"; Version := "v2.2.0" |};
                        {| Path := "github.com/genjidb/genji"; Version := "v0.8.0" |};
                        {| Path := "github.com/genjidb/genji"; Version := "v0.9.0" |} ] |})).1
  = "Genji v0.8.0" +:+ newline +:+ "Genji CLI v0.2.1" +:+ newline.
Proof.
  etrans.
  - apply (proj1 (proj2 (versionAction_prints_first_genji_dep _ _)))
      with (before := [ {| Path := "github.com/urfave/cli/v2"; Version := "v2.2.0" |} ])
           (dep := {| Path := "github.com/genjidb/genji"; Version := "v0.8.0" |})
           (after := [ {| Path := "github.com/genjidb/genji"; Version := "v0.9.0" |} ]).
    + reflexivity.
    + repeat constructor. discriminate.
    + reflexivity.
  - reflexivity.
Defined.

End cli_invariants_instances.
